(** * GrooveBox music-room server: the room session coordinator

    A shallow embedding of [src/server.js] (class [PublicMusicRoomServer]):
    the three in-memory tables [rooms], [userSockets], [roomCodes], the code
    generator [generateRoomCode] and the socket handlers installed by
    [setupSocketHandlers].  Every handler is a function from the server
    state to a new state and the list of messages it emits. *)

From Stdlib Require Import Ascii.
From stdpp Require Import base gmap sets list strings pretty.

Set Warnings "-register-all,-clear-no-such-hyp".

(** ** JavaScript values carried by client payloads *)

Module JS.

(** The payloads reach the handlers as decoded JSON; a missing property
    reads as [JUndefined].  Numbers are only ever tested for truthiness by
    the handlers, so integers stand for them. *)
Inductive jsval : Type :=
  | JUndefined
  | JNull
  | JBool (b : bool)
  | JNum (z : Z)
  | JStr (s : string)
  | JArr (l : list jsval)
  | JObj (m : gmap string jsval).

(** ToBoolean. *)
Definition truthy (v : jsval) : bool :=
  match v with
  | JUndefined | JNull => false
  | JBool b => b
  | JNum z => negb (Z.eqb z 0)
  | JStr s => negb (String.eqb s EmptyString)
  | JArr _ | JObj _ => true
  end.

(** [a || b] *)
Definition or_else (a b : jsval) : jsval := if truthy a then a else b.

(** The elements of an array keyed by their decimal index: the properties
    an array, or a string through its characters, contributes to an object
    literal it is spread into. *)
Definition index_props (l : list jsval) : gmap string jsval :=
  list_to_map (imap (λ i v, (pretty i, v)) l).

(** The single-character strings of [s], one per byte; JavaScript splits
    by UTF-16 code unit, which is the same for ASCII strings. *)
Definition chars_of (s : string) : list jsval :=
  (λ a, JStr (String a EmptyString)) <$> String.list_ascii_of_string s.

(** The own enumerable properties copied by [{...v}]. *)
Definition own_props (v : jsval) : gmap string jsval :=
  match v with
  | JObj m => m
  | JArr l => index_props l
  | JStr s => index_props (chars_of s)
  | JUndefined | JNull | JBool _ | JNum _ => ∅
  end.

(** [{...a, ...b}]: the properties of [b] win. *)
Definition spread (a : gmap string jsval) (b : jsval) : gmap string jsval :=
  own_props b ∪ a.

End JS.
Import JS.

(** ** Data model *)

(** A playlist entry.  The handlers read only [_id], a string by the data
    model, so that [===] and [includes] compare it as a string; every other
    property of the client's object is carried along untouched. *)
Record Song := mkSong {
  _id : string;
  props : gmap string jsval
}.

(** [userData] / [hostData] of the join and create handlers. *)
Record UserData := mkUserData {
  id : string;
  displayName : jsval;
  isHost : bool;
  socketId : string;
  ip : string
}.

(** An entry of [userSockets]: [{ roomCode, ...userData }]. *)
Record Session := mkSession {
  roomCode : string;
  user : UserData
}.

Record Room := mkRoom {
  code : string;
  name : jsval;
  description : jsval;
  playlist : list Song;
  settings : gmap string jsval;
  participants : gmap string UserData;
  participantCount : nat;
  createdAt : nat;
  hostId : string;
  hostIP : string
}.

(** The socket a handler closes over: [socket.id] and
    [socket.handshake.address]. *)
Record Socket := mkSocket {
  sid : string;
  address : string
}.

(** The server object.  [channels] is the room table of the socket.io
    adapter as the listeners fill it: room code to the sockets that entered it
    by [socket.join(roomCode)].  The room socket.io names after each socket's
    own id is not recorded; no listener addresses it ([io.to] and [socket.to]
    are only given the code of a registered room). *)
Record Server := mkServer {
  rooms : gmap string Room;
  userSockets : gmap string Session;
  roomCodes : gset string;
  channels : gmap string (gset string)
}.

Definition init : Server :=
  {| rooms := ∅; userSockets := ∅; roomCodes := ∅; channels := ∅ |}.

(** ** Outbound messages *)

Inductive Audience :=
  | ToSocket (s : string)              (* socket.emit *)
  | ToRoom (c : string)                (* this.io.to(c).emit *)
  | ToRoomExcept (c : string) (s : string).  (* socket.to(c).emit *)

Record RoomView := mkRoomView {
  v_code : string;
  v_name : jsval;
  v_description : jsval;
  v_playlist : list Song;
  v_settings : gmap string jsval;
  v_participants : list UserData
}.

Inductive Payload :=
  | PMessage (message : string)
  | PParticipantJoined (participant : UserData) (count : nat)
  | PRoomData (room : RoomView) (u : UserData)
  | PSettings (s : gmap string jsval)
  | PPlaylistAdded (pl : list Song) (addedBy : jsval)
  | PPlaylistRemoved (pl : list Song) (removedBy : jsval)
  | PSync (action songId currentTime isPlaying controlledBy : jsval)
  | PChat (u : jsval) (message : jsval) (timestamp : nat)
  | PParticipantLeft (participantId : string) (count : nat).

Record Emit := mkEmit {
  to : Audience;
  event : string;
  payload : Payload
}.

(** ** [generateRoomCode] *)

Definition chars : string := "ABCDEFGHIJKLMNOPQRSTUVWXYZ0123456789".

(** [chars.charAt(i)]: the empty string when [i] is out of range. *)
Definition charAt (s : string) (i : nat) : string :=
  match String.get i s with
  | Some a => String a EmptyString
  | None => EmptyString
  end.

(** One pass of the [do] body.  [rnd k] is the integer drawn by the [k]-th
    call of [Math.random] in this pass; [Math.random() < 1] makes
    [Math.floor(Math.random() * chars.length)] a remainder modulo the
    length. *)
Definition random_index (r : nat) : nat := r mod String.length chars.

Definition draw_code (rnd : nat → nat) : string :=
  foldl (λ code i, code +:+ charAt chars (random_index (rnd i))) EmptyString (seq 0 6).

(** The [do ... while (this.roomCodes.has(code))] loop over the successive
    passes, followed by [this.roomCodes.add(code)].  [None] while every pass
    supplied collides: the loop has not left yet. *)
Fixpoint generateRoomCode (passes : list (nat → nat)) (codes : gset string)
  : option (string * gset string) :=
  match passes with
  | [] => None
  | rnd :: rest =>
      let code := draw_code rnd in
      if decide (code ∈ codes) then generateRoomCode rest codes
      else Some (code, {[code]} ∪ codes)
  end.

(** ** Field updates of the mutable objects *)

Definition with_rooms (r : gmap string Room) (sv : Server) : Server :=
  {| rooms := r; userSockets := userSockets sv;
     roomCodes := roomCodes sv; channels := channels sv |}.

Definition with_userSockets (u : gmap string Session) (sv : Server) : Server :=
  {| rooms := rooms sv; userSockets := u;
     roomCodes := roomCodes sv; channels := channels sv |}.

Definition with_roomCodes (c : gset string) (sv : Server) : Server :=
  {| rooms := rooms sv; userSockets := userSockets sv;
     roomCodes := c; channels := channels sv |}.

Definition with_channels (ch : gmap string (gset string)) (sv : Server) : Server :=
  {| rooms := rooms sv; userSockets := userSockets sv;
     roomCodes := roomCodes sv; channels := ch |}.

Definition with_playlist (pl : list Song) (r : Room) : Room :=
  {| code := code r; name := name r; description := description r;
     playlist := pl; settings := settings r;
     participants := participants r; participantCount := participantCount r;
     createdAt := createdAt r; hostId := hostId r; hostIP := hostIP r |}.

Definition with_settings (st : gmap string jsval) (r : Room) : Room :=
  {| code := code r; name := name r; description := description r;
     playlist := playlist r; settings := st;
     participants := participants r; participantCount := participantCount r;
     createdAt := createdAt r; hostId := hostId r; hostIP := hostIP r |}.

(** [room.participants] changed, then
    [room.participantCount = room.participants.size]. *)
Definition with_participants (ps : gmap string UserData) (r : Room) : Room :=
  {| code := code r; name := name r; description := description r;
     playlist := playlist r; settings := settings r;
     participants := ps; participantCount := size ps;
     createdAt := createdAt r; hostId := hostId r; hostIP := hostIP r |}.

(** ** The socket.io room table *)

Definition members (c : string) (sv : Server) : gset string :=
  default ∅ (channels sv !! c).

(** [socket.join(c)] *)
Definition socket_join (s c : string) (sv : Server) : Server :=
  with_channels (<[c := {[s]} ∪ members c sv]> (channels sv)) sv.

(** A closing socket leaves every room before its ['disconnect'] listeners
    run. *)
Definition leaveAll (s : string) (sv : Server) : Server :=
  with_channels ((λ m : gset string, m ∖ {[s]}) <$> channels sv) sv.

(** The sockets an emission reaches. *)
Definition recipients (sv : Server) (a : Audience) : gset string :=
  match a with
  | ToSocket s => {[s]}
  | ToRoom c => members c sv
  | ToRoomExcept c s => members c sv ∖ {[s]}
  end.

(** The room summary sent by ['room-joined'] and ['room-created'].  The
    source lists [Array.from(room.participants.values())] in insertion order;
    here the same entries come in the order of their keys, so that only the
    entries of the list, not their order, are meant. *)
Definition view (r : Room) : RoomView :=
  {| v_code := code r; v_name := name r; v_description := description r;
     v_playlist := playlist r; v_settings := settings r;
     v_participants := (map_to_list (participants r)).*2 |}.

(** ** The socket handlers of [setupSocketHandlers] *)

Definition Result : Type := Server * list Emit.

Definition error_to (s : Socket) (msg : string) : Emit :=
  mkEmit (ToSocket (sid s)) "error" (PMessage msg).

(** [socket.on('join-room', ...)] *)
Definition join_room (socket : Socket) (roomCode : string) (displayName : jsval)
    (sv : Server) : Result :=
  match rooms sv !! roomCode with
  | None =>
      (sv, [mkEmit (ToSocket (sid socket)) "join-error" (PMessage "Room not found")])
  | Some room =>
      let userData :=
        {| id := sid socket;
           displayName := or_else displayName (JStr "Anonymous");
           isHost := false;
           socketId := sid socket;
           ip := address socket |} in
      let room := with_participants (<[sid socket := userData]> (participants room)) room in
      let sv := with_rooms (<[roomCode := room]> (rooms sv)) sv in
      let sv := with_userSockets
                  (<[sid socket := mkSession roomCode userData]> (userSockets sv)) sv in
      let sv := socket_join (sid socket) roomCode sv in
      (sv, [mkEmit (ToRoom roomCode) "participant-joined"
              (PParticipantJoined userData (participantCount room));
            mkEmit (ToSocket (sid socket)) "room-joined"
              (PRoomData (view room) userData)])
  end.

(** [socket.on('create-room', ...)].  [passes] feeds [generateRoomCode] and
    [now] is [new Date()]; no result while the generator is still looping. *)
Definition create_room (socket : Socket) (name description : jsval)
    (initialPlaylist : option (list Song)) (passes : list (nat → nat)) (now : nat)
    (sv : Server) : option Result :=
  match generateRoomCode passes (roomCodes sv) with
  | None => None
  | Some (roomCode, codes) =>
      let sv := with_roomCodes codes sv in
      let hostData :=
        {| id := sid socket;
           displayName := JStr "Host";
           isHost := true;
           socketId := sid socket;
           ip := address socket |} in
      let room :=
        {| code := roomCode;
           name := or_else name (JStr "Music Room");
           description := or_else description (JStr EmptyString);
           playlist := default [] initialPlaylist;
           settings := {[ "playbackMode" := JStr "individual";
                          "syncControl" := JStr "host-only" ]};
           participants := {[ sid socket := hostData ]};
           participantCount := 1;
           createdAt := now;
           hostId := sid socket;
           hostIP := address socket |} in
      let sv := with_userSockets
                  (<[sid socket := mkSession roomCode hostData]> (userSockets sv)) sv in
      let sv := with_rooms (<[roomCode := room]> (rooms sv)) sv in
      let sv := socket_join (sid socket) roomCode sv in
      Some (sv, [mkEmit (ToSocket (sid socket)) "room-created"
                   (PRoomData (view room) hostData)])
  end.

(** [socket.on('update-room-settings', ...)] *)
Definition update_room_settings (socket : Socket) (roomCode : string)
    (patch : jsval) (sv : Server) : Result :=
  match rooms sv !! roomCode, userSockets sv !! sid socket with
  | Some room, Some u =>
      if isHost (user u) then
        let room := with_settings (spread (settings room) patch) room in
        (with_rooms (<[roomCode := room]> (rooms sv)) sv,
         [mkEmit (ToRoom roomCode) "room-settings-updated" (PSettings (settings room))])
      else (sv, [error_to socket "Unauthorized to update room settings"])
  | _, _ => (sv, [error_to socket "Unauthorized to update room settings"])
  end.

(** [pl.some(existing => existing._id === id)] *)
Definition has_id (pl : list Song) (i : string) : bool :=
  existsb (λ existing, String.eqb (_id existing) i) pl.

(** The playlist after
    [room.playlist.push(...songs.filter(song => !room.playlist.some(..)))]. *)
Definition add_songs (pl songs : list Song) : list Song :=
  let newSongs := List.filter (λ song, negb (has_id pl (_id song))) songs in
  pl ++ newSongs.

(** [socket.on('add-to-room-playlist', ...)] *)
Definition add_to_room_playlist (socket : Socket) (roomCode : string)
    (songs : list Song) (sv : Server) : Result :=
  match rooms sv !! roomCode, userSockets sv !! sid socket with
  | Some room, Some u =>
      let room := with_playlist (add_songs (playlist room) songs) room in
      (with_rooms (<[roomCode := room]> (rooms sv)) sv,
       [mkEmit (ToRoom roomCode) "room-playlist-updated"
          (PPlaylistAdded (playlist room) (displayName (user u)))])
  | _, _ => (sv, [error_to socket "Room not found or user not in room"])
  end.

(** [songIds.includes(id)] *)
Definition includes (songIds : list string) (i : string) : bool :=
  existsb (String.eqb i) songIds.

(** [room.playlist.filter(song => !songIds.includes(song._id))] *)
Definition remove_songs (pl : list Song) (songIds : list string) : list Song :=
  List.filter (λ song, negb (includes songIds (_id song))) pl.

(** [socket.on('remove-from-room-playlist', ...)] *)
Definition remove_from_room_playlist (socket : Socket) (roomCode : string)
    (songIds : list string) (sv : Server) : Result :=
  match rooms sv !! roomCode, userSockets sv !! sid socket with
  | Some room, Some u =>
      let room := with_playlist (remove_songs (playlist room) songIds) room in
      (with_rooms (<[roomCode := room]> (rooms sv)) sv,
       [mkEmit (ToRoom roomCode) "room-playlist-updated"
          (PPlaylistRemoved (playlist room) (displayName (user u)))])
  | _, _ => (sv, [error_to socket "Room not found or user not in room"])
  end.

(** [obj.key === 'lit']: a missing property reads as [undefined]. *)
Definition prop_is (obj : gmap string jsval) (key lit : string) : bool :=
  match obj !! key with
  | Some (JStr s) => String.eqb s lit
  | _ => false
  end.

Record SyncData := mkSyncData {
  action : jsval;
  songId : jsval;
  currentTime : jsval;
  isPlaying : jsval
}.

(** [socket.on('sync-playback', ...)] *)
Definition sync_playback (socket : Socket) (roomCode : string) (d : SyncData)
    (sv : Server) : Result :=
  match rooms sv !! roomCode, userSockets sv !! sid socket with
  | Some room, Some u =>
      if prop_is (settings room) "playbackMode" "sync" then
        if prop_is (settings room) "syncControl" "host-only" && negb (isHost (user u))
        then (sv, [error_to socket "Only host can control synchronized playback"])
        else (sv, [mkEmit (ToRoomExcept roomCode (sid socket)) "sync-playback-command"
                     (PSync (action d) (songId d) (currentTime d) (isPlaying d)
                            (displayName (user u)))])
      else (sv, [])
  | _, _ => (sv, [error_to socket "Room not found or user not in room"])
  end.

(** [socket.on('chat-message', ...)] *)
Definition chat_message (socket : Socket) (roomCode : string) (message : jsval)
    (now : nat) (sv : Server) : Result :=
  match rooms sv !! roomCode, userSockets sv !! sid socket with
  | Some room, Some u =>
      (sv, [mkEmit (ToRoom roomCode) "chat-message"
              (PChat (displayName (user u)) message now)])
  | _, _ => (sv, [error_to socket "Room not found or user not in room"])
  end.

(** [socket.on('disconnect', ...)], entered after the socket has left its
    socket.io rooms. *)
Definition on_disconnect (socket : Socket) (sv : Server) : Result :=
  match userSockets sv !! sid socket with
  | Some u =>
      let '(sv, out) :=
        match rooms sv !! roomCode u with
        | Some room =>
            let room := with_participants (delete (sid socket) (participants room)) room in
            if isHost (user u) then
              (with_roomCodes (roomCodes sv ∖ {[roomCode u]})
                 (with_rooms (delete (roomCode u) (rooms sv)) sv),
               [mkEmit (ToRoom (roomCode u)) "room-closed"
                  (PMessage "Host has left the room")])
            else
              (with_rooms (<[roomCode u := room]> (rooms sv)) sv,
               [mkEmit (ToRoom (roomCode u)) "participant-left"
                  (PParticipantLeft (sid socket) (participantCount room))])
        | None => (sv, [])
        end in
      (with_userSockets (delete (sid socket) (userSockets sv)) sv, out)
  | None => (sv, [])
  end.

Definition disconnect (socket : Socket) (sv : Server) : Result :=
  on_disconnect socket (leaveAll (sid socket) sv).

(** ** Runs of the server *)

Inductive Input :=
  | JoinRoom (socket : Socket) (roomCode : string) (displayName : jsval)
  | CreateRoom (socket : Socket) (name description : jsval)
      (initialPlaylist : option (list Song)) (passes : list (nat → nat)) (now : nat)
  | UpdateRoomSettings (socket : Socket) (roomCode : string) (patch : jsval)
  | AddToRoomPlaylist (socket : Socket) (roomCode : string) (songs : list Song)
  | RemoveFromRoomPlaylist (socket : Socket) (roomCode : string) (songIds : list string)
  | SyncPlayback (socket : Socket) (roomCode : string) (d : SyncData)
  | ChatMessage (socket : Socket) (roomCode : string) (message : jsval) (now : nat)
  | Disconnect (socket : Socket).

Definition step (i : Input) (sv : Server) : option Result :=
  match i with
  | JoinRoom s c n => Some (join_room s c n sv)
  | CreateRoom s n d pl passes now => create_room s n d pl passes now sv
  | UpdateRoomSettings s c p => Some (update_room_settings s c p sv)
  | AddToRoomPlaylist s c songs => Some (add_to_room_playlist s c songs sv)
  | RemoveFromRoomPlaylist s c ids => Some (remove_from_room_playlist s c ids sv)
  | SyncPlayback s c d => Some (sync_playback s c d sv)
  | ChatMessage s c m now => Some (chat_message s c m now sv)
  | Disconnect s => Some (disconnect s sv)
  end.

(** The server after a sequence of inputs, with everything emitted. *)
Fixpoint run (inputs : list Input) (sv : Server) : option Result :=
  match inputs with
  | [] => Some (sv, [])
  | i :: rest =>
      match step i sv with
      | None => None
      | Some (sv', out) =>
          match run rest sv' with
          | None => None
          | Some (sv'', out') => Some (sv'', out ++ out')
          end
      end
  end.

Inductive reachable : Server → Prop :=
  | reachable_init : reachable init
  | reachable_step sv i sv' out :
      reachable sv → step i sv = Some (sv', out) → reachable sv'.

(** ** Well-formed room codes *)

(** A character of [[A-Z0-9]]. *)
Definition is_code_char (a : ascii) : bool :=
  let n := nat_of_ascii a in
  (65 <=? n) && (n <=? 90) || (48 <=? n) && (n <=? 57).

(** Six characters of [[A-Z0-9]]. *)
Definition is_room_code (c : string) : bool :=
  (String.length c =? 6) && forallb is_code_char (String.list_ascii_of_string c).

(** The position of [a] in [s] (the length of [s] when it is absent). *)
Fixpoint index_in (a : ascii) (s : string) : nat :=
  match s with
  | EmptyString => 0
  | String b s' => if Ascii.eqb a b then 0 else S (index_in a s')
  end.

(** The pass of the generator that draws the characters of [c]. *)
Definition pass_for (c : string) : nat → nat :=
  λ k, index_in (nth k (String.list_ascii_of_string c) "A"%char) chars.

(** ** Invariants of the reachable states *)

Record Inv (sv : Server) : Prop := mkInv {
  (* the reserved codes are the codes of the live rooms *)
  inv_codes : roomCodes sv = dom (rooms sv);
  (* a room is registered under its own code *)
  inv_key : ∀ c r, rooms sv !! c = Some r → code r = c;
  inv_room_code : ∀ c, c ∈ roomCodes sv → is_room_code c = true;
  (* a bound socket sits in the socket.io room of its session *)
  inv_member : ∀ s u, userSockets sv !! s = Some u → s ∈ members (roomCode u) sv;
  (* a session flagged host is bound to a live room created by its socket *)
  inv_host : ∀ s u, userSockets sv !! s = Some u → isHost (user u) = true →
             ∃ r, rooms sv !! roomCode u = Some r ∧ hostId r = s
}.

(** ** Typing of the settings object *)

(** [v] is ['individual'] or ['sync']. *)
Definition is_playbackMode (v : option jsval) : bool :=
  match v with
  | Some (JStr s) => String.eqb s "individual" || String.eqb s "sync"
  | _ => false
  end.

(** [v] is ['host-only'] or ['anyone']. *)
Definition is_syncControl (v : option jsval) : bool :=
  match v with
  | Some (JStr s) => String.eqb s "host-only" || String.eqb s "anyone"
  | _ => false
  end.

Definition well_typed_settings (m : gmap string jsval) : bool :=
  is_playbackMode (m !! "playbackMode") && is_syncControl (m !! "syncControl").

(** A patch that, where it carries one of the two settings, carries a value
    of its type. *)
Definition conforming_patch (p : jsval) : bool :=
  match own_props p !! "playbackMode" with
  | None => true
  | v => is_playbackMode v
  end &&
  match own_props p !! "syncControl" with
  | None => true
  | v => is_syncControl v
  end.

Definition conforming_input (i : Input) : bool :=
  match i with
  | UpdateRoomSettings _ _ p => conforming_patch p
  | _ => true
  end.

Definition all_well_typed (sv : Server) : Prop :=
  ∀ c r, rooms sv !! c = Some r → well_typed_settings (settings r) = true.

(** ** [getRoomStats] and the [/health] report *)

Module RoomStats.
Record t := mk {
  totalRooms : nat;
  totalUsers : nat;
  rooms : list string
}.
End RoomStats.

(** The source lists [Array.from(this.rooms.keys())] in creation order;
    here the same codes come in key order, so that only the codes listed, not
    their order, are meant. *)
Definition getRoomStats (sv : Server) : RoomStats.t :=
  {| RoomStats.totalRooms := size (rooms sv);
     RoomStats.totalUsers := size (userSockets sv);
     RoomStats.rooms := (map_to_list (rooms sv)).*1 |}.

Module Health.
Record t := mk {
  status : string;
  rooms : nat;
  users : nat;
  uptime : nat
}.
End Health.

(** [app.get('/health', ...)]; [uptime] is [process.uptime()]. *)
Definition health (uptime : nat) (sv : Server) : Health.t :=
  {| Health.status := "ok";
     Health.rooms := size (rooms sv);
     Health.users := size (userSockets sv);
     Health.uptime := uptime |}.

(** ** The upload storage *)

(** The [filename] callback of [multer.diskStorage]: [now] is [Date.now()]
    and [rnd] is [Math.round(Math.random() * 1E9)], both printed in decimal
    by the string concatenation. *)
Definition storage_filename (now rnd : N) (originalname : string) : string :=
  let uniqueSuffix := (pretty now +:+ "_") +:+ pretty rnd in
  (uniqueSuffix +:+ "_") +:+ originalname.

(** No character of [s] is the separator of [storage_filename]. *)
Definition no_underscore (s : string) : Prop :=
  ∀ a, a ∈ String.list_ascii_of_string s → a ≠ "_"%char.

(** ** [app.get('/stream/:roomCode/:songId', ...)] *)

(** [song.key]: a property the object lacks reads as [undefined]. *)
Definition song_prop (song : Song) (key : string) : jsval :=
  default JUndefined (props song !! key).

Definition stream_headers : list (string * string) :=
  [("Content-Type", "audio/mpeg"); ("Accept-Ranges", "bytes");
   ("Cache-Control", "public, max-age=3600")].

Inductive StreamResponse :=
  | NotFound (error : string)      (* res.status(404).json({ error }) *)
  | Piped (headers : list (string * string)) (filePath : string)
  | Threw.                         (* path.join refuses a name that is no string *)

(** [join] is [path.join] and [existsSync] is [fs.existsSync] on the disk
    as it is when the request arrives. *)
Definition stream (uploadsDir : string) (join : string → string → string)
    (existsSync : string → bool) (sv : Server) (roomCode songId : string)
  : StreamResponse :=
  match rooms sv !! roomCode with
  | None => NotFound "Room not found"
  | Some room =>
      match List.find (λ s, String.eqb (_id s) songId) (playlist room) with
      | None => NotFound "Song not found or not available for streaming"
      | Some song =>
          if negb (truthy (song_prop song "filePath"))
          then NotFound "Song not found or not available for streaming"
          else
            match song_prop song "filename" with
            | JStr filename =>
                let filePath := join uploadsDir filename in
                if existsSync filePath then Piped stream_headers filePath
                else NotFound "File not found on server"
            | _ => Threw
            end
      end
  end.

(** ** Delivery of room broadcasts *)

(** The socket.io room an emission is addressed to, if any. *)
Definition room_audience (a : Audience) : option string :=
  match a with
  | ToRoom c | ToRoomExcept c _ => Some c
  | ToSocket _ => None
  end.

(** The sockets an emission can reach at all: besides the rooms it entered
    by [socket.join], which [channels] records, socket.io keeps every
    connected socket in a room named by its own id. *)
Definition reaches (sv : Server) (a : Audience) (s : string) : Prop :=
  match a with
  | ToSocket t => s = t
  | ToRoom c => s ∈ members c sv ∨ s = c
  | ToRoomExcept c x => (s ∈ members c sv ∨ s = c) ∧ s ≠ x
  end.

(** ** Who sends an input and which room it names *)

(** The socket whose listener runs. *)
Definition sender (i : Input) : Socket :=
  match i with
  | JoinRoom s _ _ | CreateRoom s _ _ _ _ _ | UpdateRoomSettings s _ _
  | AddToRoomPlaylist s _ _ | RemoveFromRoomPlaylist s _ _
  | SyncPlayback s _ _ | ChatMessage s _ _ _ | Disconnect s => s
  end.

(** ['join-room'] and ['create-room'], the two listeners that write
    [userSockets]. *)
Definition binds (i : Input) : bool :=
  match i with
  | JoinRoom _ _ _ | CreateRoom _ _ _ _ _ _ => true
  | _ => false
  end.

(** The key of [rooms] a listener reads or writes: the [roomCode] of the
    payload, the code just generated, or for a disconnect the [roomCode] of
    the session. *)
Definition addressed (i : Input) (sv : Server) : option string :=
  match i with
  | JoinRoom _ c _ | UpdateRoomSettings _ c _ | AddToRoomPlaylist _ c _
  | RemoveFromRoomPlaylist _ c _ | SyncPlayback _ c _ | ChatMessage _ c _ _ => Some c
  | CreateRoom _ _ _ _ passes _ => fst <$> generateRoomCode passes (roomCodes sv)
  | Disconnect s => roomCode <$> userSockets sv !! sid s
  end.

(** ** Further invariants of the reachable states *)

Record Membership (sv : Server) : Prop := mkMembership {
  (* the stored count is the size of the participants map *)
  mem_count : ∀ c r, rooms sv !! c = Some r →
              participantCount r = size (participants r);
  (* a participant entry is filed under its own socket id *)
  mem_participant : ∀ c r p ud, rooms sv !! c = Some r →
              participants r !! p = Some ud → id ud = p ∧ socketId ud = p;
  (* the only entry flagged host is the one of the creating socket *)
  mem_host : ∀ c r p ud, rooms sv !! c = Some r →
              participants r !! p = Some ud → isHost ud = true → hostId r = p;
  mem_session : ∀ s u, userSockets sv !! s = Some u →
              id (user u) = s ∧ socketId (user u) = s;
  (* only bound sockets sit in socket.io rooms, and those are room codes *)
  mem_channel : ∀ c s, s ∈ members c sv →
              is_Some (userSockets sv !! s) ∧ is_room_code c = true
}.

(** ** Concrete sockets, songs and random passes used by the examples *)

Module Scenario.

Definition alice : Socket := mkSocket "sock-alice" "10.0.0.1".
Definition bob : Socket := mkSocket "sock-bob" "10.0.0.2".

(** A pass of the generator whose six draws are the given indices. *)
Definition pass (l : list nat) : nat → nat := λ i, default 0 (l !! i).

(** Draws "ABC123" and "XYZ789". *)
Definition pass_ABC123 := pass [0; 1; 2; 27; 28; 29].
Definition pass_XYZ789 := pass [23; 24; 25; 33; 34; 35].

Definition t1 : Song := mkSong "t1" {[ "title" := JStr "One" ]}.
Definition t1' : Song := mkSong "t1" {[ "title" := JStr "One again" ]}.
Definition t2 : Song := mkSong "t2" {[ "title" := JStr "Two" ]}.
Definition t3 : Song := mkSong "t3" {[ "title" := JStr "Three" ]}.

Definition create (s : Socket) (passes : list (nat → nat)) : Input :=
  CreateRoom s JUndefined JUndefined None passes 0.

(** The state after a run from the empty server. *)
Definition after (inputs : list Input) : Server :=
  match run inputs init with
  | Some (sv, _) => sv
  | None => init
  end.

End Scenario.

(** * Properties *)

(** The guard [!room || !user] shared by the handlers: split on the two
    lookups and discard the branches that return the state unchanged. *)
Ltac open_guard c socket sv room Hroom u :=
  destruct (rooms sv !! c) as [room|] eqn:Hroom; [|done];
  destruct (userSockets sv !! sid socket) as [u|]; [|done].

(** ** Playlists *)

Section Playlist.

Implicit Types (pl songs : list Song) (ids : list string) (t : Song).

Lemma has_id_true pl i : has_id pl i = true ↔ i ∈ _id <$> pl.
Proof.
  unfold has_id. rewrite existsb_exists, list_elem_of_fmap. split.
  - intros (t & Hin & Heq). apply String.eqb_eq in Heq.
    exists t. by rewrite <- list_elem_of_In in Hin.
  - intros (t & -> & Hin). exists t. rewrite <- list_elem_of_In.
    split; [done|]. apply String.eqb_refl.
Qed.

Lemma has_id_false pl i : has_id pl i = false ↔ i ∉ _id <$> pl.
Proof. rewrite <- has_id_true. destruct (has_id pl i); naive_solver. Qed.

Lemma includes_true ids i : includes ids i = true ↔ i ∈ ids.
Proof.
  unfold includes. rewrite existsb_exists. split.
  - intros (j & Hin & Heq). apply String.eqb_eq in Heq. subst j.
    by apply list_elem_of_In.
  - intros Hin. exists i. rewrite <- list_elem_of_In. split; [done|].
    apply String.eqb_refl.
Qed.

Lemma includes_false ids i : includes ids i = false ↔ i ∉ ids.
Proof. rewrite <- includes_true. destruct (includes ids i); naive_solver. Qed.

Lemma filter_none {A} (f : A → bool) (l : list A) :
  (∀ x, x ∈ l → f x = false) → List.filter f l = [].
Proof.
  induction l as [|x l IH]; intros H; simpl; [done|].
  rewrite (H x) by left. apply IH. intros y Hy. apply H. by right.
Qed.

Lemma filter_all {A} (f : A → bool) (l : list A) :
  (∀ x, x ∈ l → f x = true) → List.filter f l = l.
Proof.
  induction l as [|x l IH]; intros H; simpl; [done|].
  rewrite (H x) by left. f_equal. apply IH. intros y Hy. apply H. by right.
Qed.

(** The bool filter of the source is the filter by the property it decides. *)
Lemma filter_decide {A} (f : A → bool) (P : A → Prop) `{!∀ x, Decision (P x)}
    (l : list A) :
  (∀ x, f x = true ↔ P x) → List.filter f l = filter P l.
Proof.
  intros Hf. induction l as [|x l IH]; simpl; [done|].
  rewrite filter_cons. destruct (f x) eqn:E.
  - rewrite decide_True by by apply Hf. by f_equal.
  - rewrite decide_False; [done|]. rewrite <- Hf. congruence.
Qed.

(** What a batch appends: the songs of the batch, in batch order, whose id
    the playlist did not hold when the handler started. *)
Lemma add_songs_appended pl songs :
  ∃ new, add_songs pl songs = pl ++ new ∧ sublist new songs ∧
         ∀ t, t ∈ new ↔ t ∈ songs ∧ _id t ∉ _id <$> pl.
Proof.
  eexists. split; [reflexivity|]. split.
  - rewrite (filter_decide _ (λ t, _id t ∉ _id <$> pl)). { apply sublist_filter. }
    intros t. rewrite negb_true_iff. apply has_id_false.
  - intros t. rewrite list_elem_of_In, filter_In, <- list_elem_of_In.
    by rewrite negb_true_iff, has_id_false.
Qed.

Lemma add_songs_ids pl songs i :
  i ∈ _id <$> add_songs pl songs ↔ i ∈ _id <$> pl ∨ i ∈ _id <$> songs.
Proof.
  destruct (add_songs_appended pl songs) as (new & -> & _ & Hnew).
  rewrite fmap_app, elem_of_app, !list_elem_of_fmap. split.
  - intros [H|(t & -> & Ht)]; [by left|]. right. exists t. split; [done|].
    by apply Hnew.
  - intros [H|(t & -> & Ht)]; [by left|].
    destruct (decide (_id t ∈ _id <$> pl)) as [Hin|Hout].
    + left. by apply list_elem_of_fmap.
    + right. exists t. split; [done|]. by apply Hnew.
Qed.

Lemma add_songs_again pl songs :
  List.filter (λ song, negb (has_id (add_songs pl songs) (_id song))) songs = [].
Proof.
  apply filter_none. intros t Ht. rewrite negb_false_iff, has_id_true.
  apply add_songs_ids. right. apply list_elem_of_fmap. eauto.
Qed.

Lemma add_songs_idem pl songs :
  add_songs (add_songs pl songs) songs = add_songs pl songs.
Proof.
  unfold add_songs at 1. rewrite add_songs_again. apply app_nil_r.
Qed.

(** A batch without repeated ids keeps a duplicate-free playlist
    duplicate-free. *)
Lemma add_songs_NoDup pl songs :
  NoDup (_id <$> pl) → NoDup (_id <$> songs) → NoDup (_id <$> add_songs pl songs).
Proof.
  intros Hpl Hsongs.
  destruct (add_songs_appended pl songs) as (new & -> & Hsub & Hnew).
  rewrite fmap_app. apply NoDup_app. split; [done|]. split.
  - intros i Hi (t & -> & Ht)%list_elem_of_fmap. apply Hnew in Ht. tauto.
  - apply (sublist_NoDup _ (_id <$> songs)); [done|by apply fmap_sublist].
Qed.

Lemma remove_songs_filter pl ids :
  remove_songs pl ids = filter (λ t, _id t ∉ ids) pl.
Proof.
  apply filter_decide. intros t. by rewrite negb_true_iff, includes_false.
Qed.

End Playlist.

Lemma with_playlist_same r : with_playlist (playlist r) r = r.
Proof. by destruct r. Qed.

(** C3, evaluated: a batch that carries the id "t1" twice is appended whole
    to the empty playlist of a fresh room, because the handler compares the
    batch with the playlist as it was and never with the batch itself; the
    playlist then holds "t1" twice. *)
Theorem add_batch_repeating_an_id :
  let sv := Scenario.after
              [Scenario.create Scenario.alice [Scenario.pass_ABC123];
               AddToRoomPlaylist Scenario.alice "ABC123" [Scenario.t1; Scenario.t1']] in
  playlist <$> rooms sv !! "ABC123" = Some [Scenario.t1; Scenario.t1'] ∧
  ¬ NoDup (_id <$> [Scenario.t1; Scenario.t1']).
Proof.
  split; [by vm_compute|].
  intros H. apply NoDup_cons in H as [H _]. apply H. simpl. left.
Qed.

(** C7: submitting the same batch twice in a row leaves the server exactly
    as submitting it once: the second pass finds every id of the batch
    already in the playlist, appends nothing, and the playlist keeps its
    length and contents; and after any part of the batch went in, the whole
    batch submitted again appends no track whose id is already there. *)
Theorem add_to_room_playlist_idempotent socket roomCode songs sv :
  let once := (add_to_room_playlist socket roomCode songs sv).1 in
  let twice := (add_to_room_playlist socket roomCode songs once).1 in
  twice = once ∧
  (∀ pl,
    List.filter (λ song, negb (has_id (add_songs pl songs) (_id song))) songs = [] ∧
    add_songs (add_songs pl songs) songs = add_songs pl songs ∧
    length (add_songs (add_songs pl songs) songs) = length (add_songs pl songs)) ∧
  (∀ pl part, ∃ new,
    add_songs (add_songs pl part) songs = add_songs pl part ++ new ∧
    ∀ t, t ∈ new → (_id t ∉ _id <$> pl) ∧ (_id t ∉ _id <$> part)).
Proof.
  split.
  - unfold add_to_room_playlist.
    destruct (rooms sv !! roomCode) as [room|] eqn:Hroom;
      destruct (userSockets sv !! sid socket) as [u|] eqn:Hu; simpl;
      rewrite ?Hroom, ?Hu; try done.
    rewrite lookup_insert_eq. simpl.
    rewrite add_songs_idem. unfold with_rooms. simpl. f_equal.
    rewrite insert_insert_eq. f_equal.
  - split.
    + intros pl. rewrite add_songs_again, add_songs_idem. done.
    + intros pl part.
      destruct (add_songs_appended (add_songs pl part) songs) as (new & Hnew & _ & Hin).
      exists new. split; [done|]. intros t [_ Ht]%Hin.
      rewrite add_songs_ids in Ht. tauto.
Qed.

(** C8: on a request that passes the membership test the playlist becomes
    the sub-sequence of its tracks whose id is not among [songIds]: the
    tracks kept are exactly those, in their old relative order; ids that
    match no track leave the server as it was; and a second identical
    request changes nothing more. *)
Theorem remove_from_room_playlist_filters socket roomCode songIds sv room u :
  rooms sv !! roomCode = Some room →
  userSockets sv !! sid socket = Some u →
  let sv' := (remove_from_room_playlist socket roomCode songIds sv).1 in
  ∃ room',
    rooms sv' !! roomCode = Some room' ∧
    playlist room' = filter (λ t, _id t ∉ songIds) (playlist room) ∧
    (∀ t, t ∈ playlist room' ↔ t ∈ playlist room ∧ _id t ∉ songIds) ∧
    sublist (playlist room') (playlist room) ∧
    ((∀ i, i ∈ songIds → i ∉ _id <$> playlist room) → sv' = sv) ∧
    (remove_from_room_playlist socket roomCode songIds sv').1 = sv'.
Proof.
  intros Hroom Hu. unfold remove_from_room_playlist. rewrite Hroom, Hu. simpl.
  rewrite lookup_insert_eq, Hu. eexists. split; [reflexivity|]. simpl.
  rewrite remove_songs_filter. split; [done|]. split.
  { intros t. by rewrite list_elem_of_filter, (comm and). }
  split; [apply sublist_filter|]. split.
  - intros Habsent.
    assert (filter (λ t, _id t ∉ songIds) (playlist room) = playlist room) as ->.
    { rewrite <- remove_songs_filter. apply filter_all. intros t Ht.
      rewrite negb_true_iff, includes_false. intros Hin.
      apply (Habsent _ Hin), list_elem_of_fmap. eauto. }
    rewrite with_playlist_same, insert_id by done. by destruct sv.
  - unfold with_rooms. simpl. f_equal. rewrite insert_insert_eq. f_equal.
    unfold with_playlist. simpl. f_equal.
    rewrite remove_songs_filter. apply list_filter_filter_l. done.
Qed.

Lemma remove_from_room_playlist_filters_witness :
  let sv := Scenario.after
              [CreateRoom Scenario.alice JUndefined JUndefined
                 (Some [Scenario.t1; Scenario.t2; Scenario.t3])
                 [Scenario.pass_ABC123] 0] in
  let sv' := (remove_from_room_playlist Scenario.alice "ABC123" ["t2"; "zz"] sv).1 in
  ∃ room u,
    rooms sv !! "ABC123" = Some room ∧
    userSockets sv !! sid Scenario.alice = Some u ∧
    playlist room = [Scenario.t1; Scenario.t2; Scenario.t3] ∧
    ∃ room',
      rooms sv' !! "ABC123" = Some room' ∧
      playlist room' = filter (λ t, _id t ∉ ["t2"; "zz"]) (playlist room) ∧
      (∀ t, t ∈ playlist room' ↔ t ∈ playlist room ∧ _id t ∉ ["t2"; "zz"]) ∧
      sublist (playlist room') (playlist room) ∧
      ((∀ i, i ∈ ["t2"; "zz"] → i ∉ _id <$> playlist room) → sv' = sv) ∧
      (remove_from_room_playlist Scenario.alice "ABC123" ["t2"; "zz"] sv').1 = sv'.
Proof.
  intros sv sv'. eexists _, _.
  split; [vm_compute; reflexivity|].
  split; [vm_compute; reflexivity|].
  split; [vm_compute; reflexivity|].
  eapply remove_from_room_playlist_filters; vm_compute; reflexivity.
Defined.

(** ** The code generator *)

Section Generator.

Lemma charAt_chars i :
  i < 36 → ∃ a, charAt chars i = String a EmptyString ∧ is_code_char a = true.
Proof.
  intros Hi.
  do 36 (destruct i as [|i]; [eexists; split; reflexivity|]).
  lia.
Qed.

Lemma random_index_lt r : random_index r < 36.
Proof. unfold random_index. by apply Nat.mod_upper_bound. Qed.

Lemma draw_code_room_code rnd : is_room_code (draw_code rnd) = true.
Proof.
  unfold draw_code. simpl.
  destruct (charAt_chars _ (random_index_lt (rnd 0))) as (a0 & -> & H0).
  destruct (charAt_chars _ (random_index_lt (rnd 1))) as (a1 & -> & H1).
  destruct (charAt_chars _ (random_index_lt (rnd 2))) as (a2 & -> & H2).
  destruct (charAt_chars _ (random_index_lt (rnd 3))) as (a3 & -> & H3).
  destruct (charAt_chars _ (random_index_lt (rnd 4))) as (a4 & -> & H4).
  destruct (charAt_chars _ (random_index_lt (rnd 5))) as (a5 & -> & H5).
  unfold is_room_code. cbv -[is_code_char andb].
  by rewrite H0, H1, H2, H3, H4, H5.
Qed.

Lemma index_in_chars a :
  is_code_char a = true →
  index_in a chars < 36 ∧ charAt chars (index_in a chars) = String a EmptyString.
Proof.
  destruct a as [[] [] [] [] [] [] [] []]; intros H;
    vm_compute in H; try discriminate H;
    (split; [vm_compute; lia | reflexivity]).
Qed.

Lemma draw_code_pass_for c : is_room_code c = true → draw_code (pass_for c) = c.
Proof.
  unfold is_room_code. intros [Hlen Hall]%andb_true_iff.
  apply Nat.eqb_eq in Hlen.
  destruct c as [|a0 [|a1 [|a2 [|a3 [|a4 [|a5 [|a6 c]]]]]]]; try discriminate Hlen.
  cbn [String.list_ascii_of_string forallb] in Hall.
  repeat (apply andb_true_iff in Hall as [?%index_in_chars Hall]).
  unfold draw_code, pass_for. cbn [foldl seq String.list_ascii_of_string nth].
  unfold random_index. change (String.length chars) with 36.
  rewrite !Nat.mod_small by tauto.
  repeat match goal with
         | H : _ ∧ charAt chars _ = _ |- _ => destruct H as [_ ->]
         end.
  reflexivity.
Qed.

(** The generator leaves its loop at the first pass that is not reserved,
    reserves that code and returns it. *)
Lemma generateRoomCode_first_free collide rnd rest codes :
  (∀ r, r ∈ collide → draw_code r ∈ codes) →
  draw_code rnd ∉ codes →
  generateRoomCode (collide ++ rnd :: rest) codes
  = Some (draw_code rnd, {[draw_code rnd]} ∪ codes).
Proof.
  intros Hcoll Hfree. induction collide as [|r collide IH]; simpl.
  - by rewrite decide_False.
  - rewrite decide_True by (apply Hcoll; left). apply IH.
    intros r' Hr'. apply Hcoll. by right.
Qed.

Lemma generateRoomCode_Some passes codes c codes' :
  generateRoomCode passes codes = Some (c, codes') →
  (c ∉ codes) ∧ codes' = ({[c]} ∪ codes) ∧ is_room_code c = true.
Proof.
  induction passes as [|rnd rest IH]; simpl; [done|].
  case_decide as Hin; [exact IH|].
  intros [= <- <-]. auto using draw_code_room_code.
Qed.

End Generator.

(** ** Reachable states *)

Section Invariant.

Lemma members_socket_join s c c' sv :
  members c' (socket_join s c sv)
  = if decide (c = c') then {[s]} ∪ members c sv else members c' sv.
Proof.
  unfold members at 1. simpl. rewrite lookup_insert. by case_decide; subst.
Qed.

Lemma members_leaveAll s c sv :
  members c (leaveAll s sv) = members c sv ∖ {[s]}.
Proof.
  unfold members. simpl. rewrite lookup_fmap.
  destruct (channels sv !! c); simpl; [done|set_solver].
Qed.

Lemma dom_insert_live {A} (m : gmap string A) c x y :
  m !! c = Some x → dom (<[c := y]> m) = dom m.
Proof.
  intros H. rewrite dom_insert_L. apply (elem_of_dom_2 m) in H. set_solver.
Qed.

(** Replacing a live room by one with the same code and host. *)
Lemma Inv_update_room sv c room room' :
  Inv sv → rooms sv !! c = Some room →
  code room' = code room → hostId room' = hostId room →
  Inv (with_rooms (<[c := room']> (rooms sv)) sv).
Proof.
  intros [Hc Hk Hw Hm Hh] Hroom Hcode Hhost. split; simpl.
  - by rewrite (dom_insert_live _ _ room).
  - intros c' r. rewrite lookup_insert. case_decide; [|by apply Hk].
    intros [= <-]. subst c'. rewrite Hcode. by apply Hk.
  - done.
  - done.
  - intros s u Hu Hflag. destruct (Hh s u Hu Hflag) as (r & Hr & Hs).
    rewrite lookup_insert. case_decide as E; [|eauto].
    eexists. split; [done|]. rewrite <- E, Hroom in Hr. congruence.
Qed.

(** Binding a socket to a room: the [userSockets.set] and [socket.join] of
    the join handler. *)
Lemma Inv_bind sv s c ud :
  Inv sv → isHost ud = false →
  Inv (socket_join s c (with_userSockets (<[s := mkSession c ud]> (userSockets sv)) sv)).
Proof.
  intros [Hc Hk Hw Hm Hh] Hflag. split; simpl; try done.
  - intros s' u. rewrite members_socket_join, lookup_insert.
    case_decide as E.
    + intros [= <-]. simpl. rewrite decide_True by done. set_solver.
    + intros Hu. apply Hm in Hu. unfold members in *. simpl.
      case_decide; subst; set_solver.
  - intros s' u. rewrite lookup_insert. case_decide as E; [|by apply Hh].
    intros [= <-]. simpl. congruence.
Qed.

Lemma join_room_Inv socket c n sv : Inv sv → Inv (join_room socket c n sv).1.
Proof.
  intros HI. unfold join_room.
  destruct (rooms sv !! c) as [room|] eqn:Hroom; [|done]. simpl.
  apply (Inv_bind (with_rooms _ sv)); [|done].
  by apply (Inv_update_room sv c room).
Qed.

Lemma create_room_Inv socket n d pl passes now sv sv' out :
  Inv sv → create_room socket n d pl passes now sv = Some (sv', out) → Inv sv'.
Proof.
  intros [Hc Hk Hw Hm Hh]. unfold create_room.
  destruct (generateRoomCode passes (roomCodes sv)) as [[c codes]|] eqn:Hgen; [|done].
  apply generateRoomCode_Some in Hgen as (Hfresh & -> & Hwf).
  intros [= <- <-].
  assert (rooms sv !! c = None) as Hnone.
  { apply not_elem_of_dom. by rewrite <- Hc. }
  split; simpl.
  - by rewrite dom_insert_L, Hc.
  - intros c' r. rewrite lookup_insert. case_decide; [|by apply Hk].
    by intros [= <-].
  - intros c' [->%elem_of_singleton|Hin]%elem_of_union; auto.
  - intros s u. rewrite members_socket_join, lookup_insert. case_decide as E.
    + intros [= <-]. simpl. rewrite decide_True by done. set_solver.
    + intros Hu. apply Hm in Hu. unfold members in *. simpl.
      case_decide; subst; set_solver.
  - intros s u. rewrite lookup_insert. case_decide as E.
    + intros [= <-] _. simpl. rewrite lookup_insert_eq. eauto.
    + intros Hu Hflag. destruct (Hh s u Hu Hflag) as (r & Hr & Hs).
      exists r. split; [|done]. rewrite lookup_insert_ne; [done|].
      intros ->. congruence.
Qed.

Lemma disconnect_Inv socket sv : Inv sv → Inv (disconnect socket sv).1.
Proof.
  intros [Hc Hk Hw Hm Hh]. unfold disconnect, on_disconnect.
  change (userSockets (leaveAll (sid socket) sv)) with (userSockets sv).
  change (rooms (leaveAll (sid socket) sv)) with (rooms sv).
  destruct (userSockets sv !! sid socket) as [u|] eqn:Hu.
  2:{ split; simpl; try done.
      intros s u Hs. rewrite members_leaveAll.
      apply elem_of_difference. split; [by apply Hm|].
      intros ->%elem_of_singleton. congruence. }
  assert (∀ r us codes s u',
    delete (sid socket) (userSockets sv) !! s = Some u' →
    s ∈ members (roomCode u')
          (mkServer r us codes (channels (leaveAll (sid socket) sv)))) as Hmem.
  { intros r us codes s u'. rewrite lookup_delete. case_decide; [done|].
    intros Hs. change (s ∈ members (roomCode u') (leaveAll (sid socket) sv)).
    rewrite members_leaveAll. apply elem_of_difference. split; [by apply Hm|].
    by intros ->%elem_of_singleton. }
  destruct (rooms sv !! roomCode u) as [room|] eqn:Hroom.
  - destruct (isHost (user u)) eqn:Hflag; simpl.
    + split; simpl.
      * by rewrite dom_delete_L, Hc.
      * intros c r. rewrite lookup_delete. case_decide; [done|]. by apply Hk.
      * intros c [Hin _]%elem_of_difference. by apply Hw.
      * apply Hmem.
      * intros s u'. rewrite lookup_delete. case_decide as E; [done|].
        intros Hs Hf. destruct (Hh s u' Hs Hf) as (r & Hr & Hrs).
        exists r. split; [|done]. rewrite lookup_delete_ne; [done|].
        intros Heq. destruct (Hh _ u Hu Hflag) as (r0 & Hr0 & Hr0s).
        rewrite Heq in Hr0. congruence.
    + assert (Inv (with_rooms (<[roomCode u :=
                with_participants (delete (sid socket) (participants room)) room]>
                (rooms sv)) sv)) as [Hc' Hk' Hw' _ Hh'].
      { by apply (Inv_update_room sv _ room). }
      split; simpl; try done.
      * apply Hmem.
      * intros s u'. rewrite lookup_delete. case_decide; [done|]. apply Hh'.
  - simpl. split; simpl; try done.
    + apply Hmem.
    + intros s u'. rewrite lookup_delete. case_decide; [done|]. apply Hh.
Qed.

Lemma update_room_settings_Inv socket c p sv :
  Inv sv → Inv (update_room_settings socket c p sv).1.
Proof.
  intros HI. unfold update_room_settings. open_guard c socket sv room Hroom u.
  destruct (isHost (user u)); [|done]. simpl.
  by apply (Inv_update_room sv _ room).
Qed.

Lemma add_to_room_playlist_Inv socket c songs sv :
  Inv sv → Inv (add_to_room_playlist socket c songs sv).1.
Proof.
  intros HI. unfold add_to_room_playlist. open_guard c socket sv room Hroom u. simpl.
  by apply (Inv_update_room sv _ room).
Qed.

Lemma remove_from_room_playlist_Inv socket c ids sv :
  Inv sv → Inv (remove_from_room_playlist socket c ids sv).1.
Proof.
  intros HI. unfold remove_from_room_playlist. open_guard c socket sv room Hroom u. simpl.
  by apply (Inv_update_room sv _ room).
Qed.

Lemma sync_playback_state socket c d sv : (sync_playback socket c d sv).1 = sv.
Proof. unfold sync_playback. by repeat case_match. Qed.

Lemma chat_message_state socket c m now sv : (chat_message socket c m now sv).1 = sv.
Proof. unfold chat_message. by repeat case_match. Qed.

Lemma step_Inv i sv sv' out : Inv sv → step i sv = Some (sv', out) → Inv sv'.
Proof.
  intros HI. destruct i; simpl; try (intros [= H]; apply (f_equal fst) in H;
                                     simpl in H; subst sv').
  - by apply join_room_Inv.
  - by apply create_room_Inv.
  - by apply update_room_settings_Inv.
  - by apply add_to_room_playlist_Inv.
  - by apply remove_from_room_playlist_Inv.
  - by rewrite sync_playback_state.
  - by rewrite chat_message_state.
  - by apply disconnect_Inv.
Qed.

Lemma init_Inv : Inv init.
Proof.
  split; simpl; done.
Qed.

Lemma reachable_Inv sv : reachable sv → Inv sv.
Proof. induction 1; eauto using init_Inv, step_Inv. Qed.

Lemma run_reachable inputs sv sv' out :
  reachable sv → run inputs sv = Some (sv', out) → reachable sv'.
Proof.
  revert sv out. induction inputs as [|i inputs IH]; intros sv out Hr; simpl.
  - by intros [= <- _].
  - destruct (step i sv) as [[sv1 out1]|] eqn:Hstep; [|done].
    destruct (run inputs sv1) as [[sv2 out2]|] eqn:Hrun; [|done].
    intros [= <- _]. eapply IH; [|done]. by eapply reachable_step.
Qed.

End Invariant.

(** ** Room codes and host departure *)

Lemma after_reachable inputs :
  is_Some (run inputs init) → reachable (Scenario.after inputs).
Proof.
  intros [[sv out] H]. unfold Scenario.after. rewrite H.
  eapply run_reachable; [apply reachable_init|exact H].
Qed.

(** A code that is not reserved can be issued: the pass drawing its six
    characters makes [create-room] register a room under it. *)
Lemma create_room_issues c socket n d pl now sv :
  is_room_code c = true → c ∉ roomCodes sv →
  ∃ sv' out, create_room socket n d pl [pass_for c] now sv = Some (sv', out) ∧
             code <$> rooms sv' !! c = Some c.
Proof.
  intros Hwf Hfree. unfold create_room. simpl.
  rewrite (draw_code_pass_for c Hwf), decide_False by done.
  eexists _, _. split; [reflexivity|]. simpl. by rewrite lookup_insert_eq.
Qed.

(** C6: in every reachable state each live room is registered under its own
    code, a six-character string over [[A-Z0-9]] held in the reserved set, so
    two live rooms never share a code; the generator skips every pass that
    collides with a reserved code and returns the first free one, which no
    live room has; and a step takes a code out of the reserved set only by
    destroying the room that owned it, after which a later [create-room] can
    be issued that very code. *)
Theorem room_codes_unique_while_live sv :
  reachable sv →
  (∀ c room, rooms sv !! c = Some room →
     code room = c ∧ is_room_code (code room) = true ∧ c ∈ roomCodes sv) ∧
  (∀ c1 c2 r1 r2, rooms sv !! c1 = Some r1 → rooms sv !! c2 = Some r2 →
     code r1 = code r2 → c1 = c2) ∧
  (∀ collide rnd rest,
     (∀ r, r ∈ collide → draw_code r ∈ roomCodes sv) →
     draw_code rnd ∉ roomCodes sv →
     generateRoomCode (collide ++ rnd :: rest) (roomCodes sv)
     = Some (draw_code rnd, {[draw_code rnd]} ∪ roomCodes sv)) ∧
  (∀ passes c codes, generateRoomCode passes (roomCodes sv) = Some (c, codes) →
     rooms sv !! c = None ∧ is_room_code c = true) ∧
  (∀ i sv' out c, step i sv = Some (sv', out) →
     c ∈ roomCodes sv → c ∉ roomCodes sv' →
     is_Some (rooms sv !! c) ∧ rooms sv' !! c = None ∧
     ∀ socket n d pl now,
       ∃ sv'' out', create_room socket n d pl [pass_for c] now sv' = Some (sv'', out') ∧
                    code <$> rooms sv'' !! c = Some c).
Proof.
  intros Hreach. pose proof (reachable_Inv _ Hreach) as [Hc Hk Hw Hm Hh].
  split; [|split; [|split; [|split]]].
  - intros c room Hroom. rewrite (Hk _ _ Hroom).
    assert (c ∈ roomCodes sv) by (rewrite Hc; by eapply elem_of_dom_2). auto.
  - intros c1 c2 r1 r2 H1 H2. rewrite (Hk _ _ H1), (Hk _ _ H2). done.
  - intros collide rnd rest. apply generateRoomCode_first_free.
  - intros passes c codes (Hfree & _ & Hwf)%generateRoomCode_Some.
    split; [|done]. apply not_elem_of_dom. by rewrite <- Hc.
  - intros i sv' out c Hstep Hin Hout.
    pose proof (step_Inv _ _ _ _ (reachable_Inv _ Hreach) Hstep) as [Hc' _ _ _ _].
    split; [|split].
    + apply elem_of_dom. by rewrite <- Hc.
    + apply not_elem_of_dom. by rewrite <- Hc'.
    + intros. apply create_room_issues; auto.
Qed.

Lemma room_codes_unique_while_live_witness :
  let sv := Scenario.after
              [Scenario.create Scenario.alice [Scenario.pass_ABC123];
               Scenario.create Scenario.bob [Scenario.pass_ABC123; Scenario.pass_XYZ789]] in
  reachable sv ∧
  elements (roomCodes sv) = ["ABC123"; "XYZ789"] ∧
  ∀ c1 c2 r1 r2, rooms sv !! c1 = Some r1 → rooms sv !! c2 = Some r2 →
     code r1 = code r2 → c1 = c2.
Proof.
  intros sv.
  assert (reachable sv) as Hreach.
  { apply after_reachable. eexists. vm_compute. reflexivity. }
  split; [exact Hreach|]. split; [vm_compute; reflexivity|].
  exact (proj1 (proj2 (room_codes_unique_while_live sv Hreach))).
Defined.




(** ** Playback authority *)




(** ** Authority over the room settings *)

(** C4, as stated, fails: a socket that is host of its own room changes the
    settings of a room whose [hostId] is another socket, just by naming that
    room's code; the request is not refused and the new settings are
    broadcast to the foreign room. *)
Lemma host_of_other_room_updates_settings :
  let sv := Scenario.after
              [Scenario.create Scenario.alice [Scenario.pass_ABC123];
               Scenario.create Scenario.bob [Scenario.pass_XYZ789]] in
  let patch := JObj {[ "playbackMode" := JStr "sync" ]} in
  let merged : gmap string jsval :=
    {[ "playbackMode" := JStr "sync"; "syncControl" := JStr "host-only" ]} in
  reachable sv ∧
  hostId <$> rooms sv !! "ABC123" = Some (sid Scenario.alice) ∧
  sid Scenario.bob ≠ sid Scenario.alice ∧
  roomCode <$> userSockets sv !! sid Scenario.bob = Some "XYZ789" ∧
  settings <$> rooms (update_room_settings Scenario.bob "ABC123" patch sv).1 !! "ABC123"
    = Some merged ∧
  (update_room_settings Scenario.bob "ABC123" patch sv).2
    = [mkEmit (ToRoom "ABC123") "room-settings-updated" (PSettings merged)].
Proof.
  intros sv patch merged. split.
  { apply after_reachable. eexists. vm_compute. reflexivity. }
  split; [vm_compute; reflexivity|]. split; [discriminate|].
  repeat split; vm_compute; reflexivity.
Qed.

(** C4, amended: the update is refused, with the ['error'] message sent to
    the requester alone and the server left as it was, unless the addressed
    room exists and the requester's session carries the host flag; it is then
    applied.  For a requester whose session is bound to the addressed room the
    flag implies that the requester is the room's [hostId], so such a
    requester is refused whenever it is not the room's host. *)
Theorem update_room_settings_authority sv socket c patch :
  let denied : Result :=
    (sv, [mkEmit (ToSocket (sid socket)) "error"
            (PMessage "Unauthorized to update room settings")]) in
  (rooms sv !! c = None → update_room_settings socket c patch sv = denied) ∧
  (userSockets sv !! sid socket = None →
     update_room_settings socket c patch sv = denied) ∧
  (∀ u, userSockets sv !! sid socket = Some u → isHost (user u) = false →
     update_room_settings socket c patch sv = denied) ∧
  (∀ room u, rooms sv !! c = Some room → userSockets sv !! sid socket = Some u →
     isHost (user u) = true →
     update_room_settings socket c patch sv
     = (with_rooms (<[c := with_settings (spread (settings room) patch) room]> (rooms sv)) sv,
        [mkEmit (ToRoom c) "room-settings-updated"
           (PSettings (spread (settings room) patch))])) ∧
  (reachable sv →
   ∀ room u, rooms sv !! c = Some room → userSockets sv !! sid socket = Some u →
     roomCode u = c → hostId room ≠ sid socket →
     update_room_settings socket c patch sv = denied).
Proof.
  intros denied. unfold update_room_settings.
  split; [|split; [|split; [|split]]].
  - by intros ->.
  - intros ->. by destruct (rooms sv !! c).
  - intros u -> ->. by destruct (rooms sv !! c).
  - by intros room u -> -> ->.
  - intros Hreach room u Hroom Hu Hc Hne. rewrite Hroom, Hu.
    destruct (isHost (user u)) eqn:Hflag; [|done].
    destruct (inv_host _ (reachable_Inv _ Hreach) _ _ Hu Hflag) as (r & Hr & Hs).
    rewrite Hc, Hroom in Hr. congruence.
Qed.

Lemma update_room_settings_authority_witness :
  let sv := Scenario.after
              [Scenario.create Scenario.alice [Scenario.pass_ABC123];
               JoinRoom Scenario.bob "ABC123" (JStr "Bob")] in
  let patch := JObj {[ "playbackMode" := JStr "sync" ]} in
  reachable sv ∧
  update_room_settings Scenario.bob "ABC123" patch sv
  = (sv, [mkEmit (ToSocket (sid Scenario.bob)) "error"
            (PMessage "Unauthorized to update room settings")]).
Proof.
  intros sv patch.
  assert (reachable sv) as Hreach.
  { apply after_reachable. eexists. vm_compute. reflexivity. }
  assert (∃ room, rooms sv !! "ABC123" = Some room ∧ hostId room ≠ sid Scenario.bob)
    as (room & Hroom & Hhost).
  { eexists. split; [vm_compute; reflexivity|]. discriminate. }
  assert (∃ u, userSockets sv !! sid Scenario.bob = Some u ∧ roomCode u = "ABC123")
    as (u & Hu & Hc).
  { eexists. split; [vm_compute; reflexivity|]. reflexivity. }
  split; [exact Hreach|].
  exact (proj2 (proj2 (proj2 (proj2
           (update_room_settings_authority sv Scenario.bob "ABC123" patch))))
         Hreach room u Hroom Hu Hc Hhost).
Defined.

(** ** Session bindings *)

Lemma userSockets_disconnect socket sv :
  userSockets (disconnect socket sv).1 = delete (sid socket) (userSockets sv).
Proof.
  unfold disconnect, on_disconnect.
  change (userSockets (leaveAll (sid socket) sv)) with (userSockets sv).
  change (rooms (leaveAll (sid socket) sv)) with (rooms sv).
  destruct (userSockets sv !! sid socket) as [u|] eqn:Hu.
  - destruct (rooms sv !! roomCode u); [|done]. by destruct (isHost (user u)).
  - simpl. by rewrite delete_id.
Qed.

Lemma userSockets_step i sv sv' out :
  step i sv = Some (sv', out) →
  match i with
  | JoinRoom socket c n =>
      match rooms sv !! c with
      | Some room =>
          userSockets sv' !! sid socket
          = Some (mkSession c (mkUserData (sid socket) (or_else n (JStr "Anonymous"))
                                 false (sid socket) (address socket))) ∧
          (∀ s, s ≠ sid socket → userSockets sv' !! s = userSockets sv !! s) ∧
          ∀ c', c' ≠ c → rooms sv' !! c' = rooms sv !! c'
      | None => sv' = sv
      end
  | CreateRoom socket _ _ _ passes _ =>
      ∃ c codes, generateRoomCode passes (roomCodes sv) = Some (c, codes) ∧
        userSockets sv' !! sid socket
        = Some (mkSession c (mkUserData (sid socket) (JStr "Host") true
                               (sid socket) (address socket))) ∧
        (∀ s, s ≠ sid socket → userSockets sv' !! s = userSockets sv !! s) ∧
        ∀ c', c' ≠ c → rooms sv' !! c' = rooms sv !! c'
  | Disconnect socket => userSockets sv' = delete (sid socket) (userSockets sv)
  | _ => userSockets sv' = userSockets sv
  end.
Proof.
  destruct i; simpl.
  - intros [= H]. unfold join_room in H.
    destruct (rooms sv !! roomCode0) as [room|]; [|congruence].
    injection H as <- _. simpl. rewrite lookup_insert_eq. split; [done|].
    split; intros; by rewrite lookup_insert_ne.
  - unfold create_room.
    destruct (generateRoomCode passes (roomCodes sv)) as [[c codes]|]; [|done].
    intros [= <- _]. exists c, codes. simpl. rewrite lookup_insert_eq.
    split; [done|]. split; [done|]. split; intros; by rewrite lookup_insert_ne.
  - intros [= H]. unfold update_room_settings in H.
    repeat case_match; by injection H as <- _.
  - intros [= H]. unfold add_to_room_playlist in H.
    repeat case_match; by injection H as <- _.
  - intros [= H]. unfold remove_from_room_playlist in H.
    repeat case_match; by injection H as <- _.
  - intros [= H]. apply (f_equal fst) in H. simpl in H.
    by rewrite sync_playback_state in H; subst.
  - intros [= H]. apply (f_equal fst) in H. simpl in H.
    by rewrite chat_message_state in H; subst.
  - intros [= H]. apply (f_equal fst) in H. simpl in H. subst sv'.
    apply userSockets_disconnect.
Qed.

(** C5, as stated, fails: a socket bound to the room it created joins a
    second room without disconnecting; its session is rebound to the second
    room and its id is then a participant of two distinct live rooms. *)
Lemma join_rebinds_a_bound_socket :
  let before := Scenario.after
                  [Scenario.create Scenario.alice [Scenario.pass_ABC123];
                   Scenario.create Scenario.bob [Scenario.pass_XYZ789]] in
  let sv := Scenario.after
              [Scenario.create Scenario.alice [Scenario.pass_ABC123];
               Scenario.create Scenario.bob [Scenario.pass_XYZ789];
               JoinRoom Scenario.alice "XYZ789" (JStr "Alice")] in
  reachable sv ∧
  roomCode <$> userSockets before !! sid Scenario.alice = Some "ABC123" ∧
  roomCode <$> userSockets sv !! sid Scenario.alice = Some "XYZ789" ∧
  id <$> (rooms sv !! "ABC123" ≫= λ r, participants r !! sid Scenario.alice)
    = Some (sid Scenario.alice) ∧
  id <$> (rooms sv !! "XYZ789" ≫= λ r, participants r !! sid Scenario.alice)
    = Some (sid Scenario.alice).
Proof.
  intros before sv. split.
  { apply after_reachable. eexists. vm_compute. reflexivity. }
  repeat split; vm_compute; reflexivity.
Qed.

(** A step takes a session record away only when it is the disconnect of
    that socket, and changes the room it names only when it is a [join-room]
    or [create-room] of that same socket, in which case the room named before
    is left exactly as it was. *)
Lemma binding_change_comes_from_bind sv i sv' out s u :
  step i sv = Some (sv', out) →
  userSockets sv !! s = Some u →
  (userSockets sv' !! s = None → ∃ socket, i = Disconnect socket ∧ sid socket = s) ∧
  (∀ u', userSockets sv' !! s = Some u' → roomCode u' ≠ roomCode u →
     rooms sv' !! roomCode u = rooms sv !! roomCode u ∧
     ((∃ socket n, i = JoinRoom socket (roomCode u') n ∧ sid socket = s ∧
                   isHost (user u') = false) ∨
      (∃ socket n d pl passes now,
         i = CreateRoom socket n d pl passes now ∧ sid socket = s ∧
         isHost (user u') = true))).
Proof.
  intros Hstep Hu. pose proof (userSockets_step _ _ _ _ Hstep) as H.
  destruct i.
  - destruct (rooms sv !! roomCode0) as [room|]; [|subst sv'].
    + destruct H as (Hnew & Hold & Hrooms). destruct (decide (s = sid socket)) as [->|Hne].
      * rewrite Hnew. split; [done|]. intros u' [= <-] Hcode. simpl in *.
        split; [by apply Hrooms|]. left. by eexists _, _.
      * rewrite (Hold _ Hne), Hu. split; [done|]. by intros u' [= <-].
    + rewrite Hu. split; [done|]. by intros u' [= <-].
  - destruct H as (c & codes & Hgen & Hnew & Hold & Hrooms).
    destruct (decide (s = sid socket)) as [->|Hne].
    + rewrite Hnew. split; [done|]. intros u' [= <-] Hcode. simpl in *.
      split; [by apply Hrooms|]. right. by eexists _, _, _, _, _, _.
    + rewrite (Hold _ Hne), Hu. split; [done|]. by intros u' [= <-].
  - rewrite H, Hu. split; [done|]. by intros u' [= <-].
  - rewrite H, Hu. split; [done|]. by intros u' [= <-].
  - rewrite H, Hu. split; [done|]. by intros u' [= <-].
  - rewrite H, Hu. split; [done|]. by intros u' [= <-].
  - rewrite H, Hu. split; [done|]. by intros u' [= <-].
  - rewrite H, lookup_delete. case_decide as E.
    + split; [eauto|done].
    + rewrite Hu. split; [done|]. by intros u' [= <-].
Qed.

(** What [join-room] on a live room writes for the joining socket. *)
Lemma join_room_binds socket c n sv room :
  rooms sv !! c = Some room →
  let ud := mkUserData (sid socket) (or_else n (JStr "Anonymous")) false
              (sid socket) (address socket) in
  userSockets (join_room socket c n sv).1 !! sid socket = Some (mkSession c ud) ∧
  (∃ room', rooms (join_room socket c n sv).1 !! c = Some room' ∧
            participants room' !! sid socket = Some ud) ∧
  (∀ c', c' ≠ c → rooms (join_room socket c n sv).1 !! c' = rooms sv !! c').
Proof.
  intros Hroom ud. unfold join_room. rewrite Hroom. simpl.
  split; [apply lookup_insert_eq|]. split.
  - eexists. split; [apply lookup_insert_eq|]. simpl. apply lookup_insert_eq.
  - intros c' Hc'. by rewrite lookup_insert_ne.
Qed.

(** What [create-room] writes for the creating socket. *)
Lemma create_room_binds socket n d pl passes now sv sv' out :
  create_room socket n d pl passes now sv = Some (sv', out) →
  let hd := mkUserData (sid socket) (JStr "Host") true (sid socket) (address socket) in
  ∃ c room',
    (c ∉ roomCodes sv) ∧
    userSockets sv' !! sid socket = Some (mkSession c hd) ∧
    rooms sv' !! c = Some room' ∧ participants room' !! sid socket = Some hd ∧
    (∀ c', c' ≠ c → rooms sv' !! c' = rooms sv !! c').
Proof.
  unfold create_room.
  destruct (generateRoomCode passes (roomCodes sv)) as [[c codes]|] eqn:Hgen; [|done].
  apply generateRoomCode_Some in Hgen as (Hfresh & _ & _).
  intros [= <- _]. cbv zeta. exists c. eexists. simpl. split; [done|].
  split; [apply lookup_insert_eq|]. split; [apply lookup_insert_eq|]. simpl.
  split; [apply lookup_singleton_eq|]. intros c' Hc'. by rewrite lookup_insert_ne.
Qed.

(** C5, amended: a step takes a session record away only when it is the
    disconnect of that socket; a session names one room, and a step changes
    the room it names only when it is a [join-room] or [create-room] of that
    same socket.  Conversely a [join-room] naming a live room, or a
    [create-room], sent by a socket that is already bound rebinds its session
    to that room and files the socket among that room's participants, while
    the room named before, when it is another one, is left exactly as it was:
    a socket that was a participant of the room it was bound to is afterwards
    a participant of two registered rooms. *)
Theorem session_binding_changes sv i sv' out s u :
  step i sv = Some (sv', out) →
  userSockets sv !! s = Some u →
  (userSockets sv' !! s = None → ∃ socket, i = Disconnect socket ∧ sid socket = s) ∧
  (∀ u', userSockets sv' !! s = Some u' → roomCode u' ≠ roomCode u →
     rooms sv' !! roomCode u = rooms sv !! roomCode u ∧
     ((∃ socket n, i = JoinRoom socket (roomCode u') n ∧ sid socket = s ∧
                   isHost (user u') = false) ∨
      (∃ socket n d pl passes now,
         i = CreateRoom socket n d pl passes now ∧ sid socket = s ∧
         isHost (user u') = true))) ∧
  (∀ socket c n room,
     i = JoinRoom socket c n → sid socket = s → rooms sv !! c = Some room →
     let ud := mkUserData s (or_else n (JStr "Anonymous")) false s (address socket) in
     userSockets sv' !! s = Some (mkSession c ud) ∧
     (∃ room', rooms sv' !! c = Some room' ∧ participants room' !! s = Some ud) ∧
     (c ≠ roomCode u → rooms sv' !! roomCode u = rooms sv !! roomCode u)) ∧
  (∀ socket n d pl passes now,
     i = CreateRoom socket n d pl passes now → sid socket = s →
     let hd := mkUserData s (JStr "Host") true s (address socket) in
     ∃ c room',
       userSockets sv' !! s = Some (mkSession c hd) ∧
       rooms sv' !! c = Some room' ∧ participants room' !! s = Some hd ∧
       (c ≠ roomCode u → rooms sv' !! roomCode u = rooms sv !! roomCode u) ∧
       (reachable sv → is_Some (rooms sv !! roomCode u) → c ≠ roomCode u)) ∧
  (∀ r x u',
     rooms sv !! roomCode u = Some r → participants r !! s = Some x →
     userSockets sv' !! s = Some u' → roomCode u' ≠ roomCode u →
     ∃ r', rooms sv' !! roomCode u = Some r ∧ participants r !! s = Some x ∧
           rooms sv' !! roomCode u' = Some r' ∧ is_Some (participants r' !! s)).
Proof.
  intros Hstep Hu.
  destruct (binding_change_comes_from_bind _ _ _ _ _ _ Hstep Hu) as [Hgone Hchanged].
  split; [exact Hgone|]. split; [exact Hchanged|].
  assert (∀ socket c n room,
     i = JoinRoom socket c n → sid socket = s → rooms sv !! c = Some room →
     let ud := mkUserData s (or_else n (JStr "Anonymous")) false s (address socket) in
     userSockets sv' !! s = Some (mkSession c ud) ∧
     (∃ room', rooms sv' !! c = Some room' ∧ participants room' !! s = Some ud) ∧
     (c ≠ roomCode u → rooms sv' !! roomCode u = rooms sv !! roomCode u)) as Hjoin.
  { intros socket c n room -> <- Hroom ud. simpl in Hstep.
    injection Hstep as Hstep. apply (f_equal fst) in Hstep. simpl in Hstep. subst sv'.
    destruct (join_room_binds socket c n sv room Hroom) as (Hs & Hr & Hother).
    split; [exact Hs|]. split; [exact Hr|]. intros Hne. apply Hother. congruence. }
  assert (∀ socket n d pl passes now,
     i = CreateRoom socket n d pl passes now → sid socket = s →
     let hd := mkUserData s (JStr "Host") true s (address socket) in
     ∃ c room',
       userSockets sv' !! s = Some (mkSession c hd) ∧
       rooms sv' !! c = Some room' ∧ participants room' !! s = Some hd ∧
       (c ≠ roomCode u → rooms sv' !! roomCode u = rooms sv !! roomCode u) ∧
       (reachable sv → is_Some (rooms sv !! roomCode u) → c ≠ roomCode u)) as Hcreate.
  { intros socket n d pl passes now -> <- hd. simpl in Hstep.
    destruct (create_room_binds _ _ _ _ _ _ _ _ _ Hstep)
      as (c & room' & Hfresh & Hs & Hr & Hp & Hother).
    exists c, room'. split; [exact Hs|]. split; [exact Hr|]. split; [exact Hp|].
    split; [intros Hne; apply Hother; congruence|].
    intros Hreach Hlive ->. apply Hfresh.
    rewrite (inv_codes _ (reachable_Inv _ Hreach)). by apply elem_of_dom. }
  split; [exact Hjoin|]. split; [exact Hcreate|].
  intros r x u' Hr Hx Hu' Hne.
  destruct (Hchanged u' Hu' Hne) as [Hsame [(socket & n & -> & Hsid & _)
                                          |(socket & n & d & pl & passes & now & -> & Hsid & _)]].
  - destruct (rooms sv !! roomCode u') as [room|] eqn:Hroom.
    + destruct (Hjoin socket _ n room eq_refl Hsid Hroom) as (_ & (room' & Hr' & Hp') & _).
      exists room'. rewrite Hsame. by repeat split.
    + simpl in Hstep. unfold join_room in Hstep. rewrite Hroom in Hstep.
      injection Hstep as <- _. congruence.
  - destruct (Hcreate socket n d pl passes now eq_refl Hsid)
      as (c & room' & Hs & Hr' & Hp' & _).
    rewrite Hu' in Hs. injection Hs as ->. simpl.
    exists room'. rewrite Hsame. by repeat split.
Qed.

Lemma session_binding_changes_witness :
  let sv := Scenario.after
              [Scenario.create Scenario.alice [Scenario.pass_ABC123];
               Scenario.create Scenario.bob [Scenario.pass_XYZ789]] in
  let i := JoinRoom Scenario.alice "XYZ789" (JStr "Alice") in
  ∃ sv' out, step i sv = Some (sv', out) ∧
    roomCode <$> userSockets sv !! sid Scenario.alice = Some "ABC123" ∧
    roomCode <$> userSockets sv' !! sid Scenario.alice = Some "XYZ789" ∧
    rooms sv' !! "ABC123" = rooms sv !! "ABC123".
Proof.
  intros sv i.
  assert (∃ u, userSockets sv !! sid Scenario.alice = Some u ∧ roomCode u = "ABC123")
    as (u & Hu & Hc).
  { eexists. split; [vm_compute; reflexivity|]. reflexivity. }
  assert (∃ u', userSockets (join_room Scenario.alice "XYZ789" (JStr "Alice") sv).1
                  !! sid Scenario.alice = Some u' ∧ roomCode u' = "XYZ789")
    as (u' & Hu' & Hc').
  { eexists. split; [vm_compute; reflexivity|]. reflexivity. }
  exists (join_room Scenario.alice "XYZ789" (JStr "Alice") sv).1,
         (join_room Scenario.alice "XYZ789" (JStr "Alice") sv).2.
  assert (step i sv = Some ((join_room Scenario.alice "XYZ789" (JStr "Alice") sv).1,
                            (join_room Scenario.alice "XYZ789" (JStr "Alice") sv).2))
    as Hstep.
  { unfold i. cbn [step]. by rewrite <- surjective_pairing. }
  split; [exact Hstep|].
  rewrite Hu, Hu'. simpl. rewrite Hc, Hc'. do 2 (split; [done|]).
  rewrite <- Hc.
  refine (proj1 (proj1 (proj2 (session_binding_changes sv i _ _ (sid Scenario.alice) u
                                 Hstep Hu)) u' Hu' _)).
  rewrite Hc, Hc'. discriminate.
Defined.

(** ** Creation defaults *)

(** C9, as stated, fails: a room created without a name and a description
    gets the name 'Music Room' and the empty string as its description. *)
Lemma create_room_without_description :
  let sv := Scenario.after
              [CreateRoom Scenario.alice JUndefined JUndefined None
                 [Scenario.pass_ABC123] 0] in
  name <$> rooms sv !! "ABC123" = Some (JStr "Music Room") ∧
  description <$> rooms sv !! "ABC123" = Some (JStr EmptyString).
Proof. split; vm_compute; reflexivity. Qed.

Lemma truthy_not_empty v : truthy v = true → v ≠ JStr EmptyString.
Proof. by intros H ->. Qed.

(** C9, amended: the room registered by [create-room] has a name that is
    never the empty string, 'Music Room' replacing a missing or empty name;
    its description is the client's when that is non-empty and the empty
    string when it is missing or empty. *)
Theorem create_room_name_and_description socket n d pl passes now sv sv' out :
  create_room socket n d pl passes now sv = Some (sv', out) →
  ∃ c codes room,
    generateRoomCode passes (roomCodes sv) = Some (c, codes) ∧
    rooms sv' !! c = Some room ∧ code room = c ∧
    name room ≠ JStr EmptyString ∧ truthy (name room) = true ∧
    (n = JUndefined ∨ n = JStr EmptyString → name room = JStr "Music Room") ∧
    (truthy n = true → name room = n) ∧
    (d = JUndefined ∨ d = JStr EmptyString → description room = JStr EmptyString) ∧
    (truthy d = true → description room = d).
Proof.
  unfold create_room.
  destruct (generateRoomCode passes (roomCodes sv)) as [[c codes]|]; [|done].
  intros [= <- _]. eexists c, codes, _. split; [done|]. simpl.
  rewrite lookup_insert_eq. split; [done|]. simpl. split; [done|].
  assert (truthy (or_else n (JStr "Music Room")) = true) as Hname.
  { unfold or_else. by destruct (truthy n) eqn:E. }
  split; [by apply truthy_not_empty|]. split; [done|].
  unfold or_else. repeat split.
  - by intros [-> | ->].
  - by intros ->.
  - by intros [-> | ->].
  - by intros ->.
Qed.

Lemma create_room_name_and_description_witness :
  ∃ sv' out,
    create_room Scenario.alice (JStr EmptyString) (JStr "Friday mix") None
      [Scenario.pass_ABC123] 0 init = Some (sv', out) ∧
    ∃ c codes room,
    generateRoomCode [Scenario.pass_ABC123] (roomCodes init) = Some (c, codes) ∧
    rooms sv' !! c = Some room ∧ code room = c ∧
    name room ≠ JStr EmptyString ∧ truthy (name room) = true ∧
    (JStr EmptyString = JUndefined ∨ JStr EmptyString = JStr EmptyString → name room = JStr "Music Room") ∧
    (truthy (JStr EmptyString) = true → name room = JStr EmptyString) ∧
    (JStr "Friday mix" = JUndefined ∨ JStr "Friday mix" = JStr EmptyString →
       description room = JStr EmptyString) ∧
    (truthy (JStr "Friday mix") = true → description room = JStr "Friday mix").
Proof.
  eexists _, _.
  assert (∀ (P : Prop) x, x → (x → P) → x ∧ P) as Hcut by tauto.
  apply Hcut; [vm_compute; reflexivity|].
  apply create_room_name_and_description.
Defined.

(** ** Typing of the settings *)

(** C10, as stated, fails: the host patches [playbackMode] with a string
    that is neither 'individual' nor 'sync', and the room's settings hold it. *)
Lemma patch_with_unknown_playbackMode :
  let sv := Scenario.after
              [Scenario.create Scenario.alice [Scenario.pass_ABC123];
               UpdateRoomSettings Scenario.alice "ABC123"
                 (JObj {[ "playbackMode" := JStr "banana" ]})] in
  reachable sv ∧
  (rooms sv !! "ABC123" ≫= λ r, settings r !! "playbackMode") = Some (JStr "banana") ∧
  well_typed_settings <$> (settings <$> rooms sv !! "ABC123") = Some false.
Proof.
  intros sv. split.
  { apply after_reachable. eexists. vm_compute. reflexivity. }
  split; vm_compute; reflexivity.
Qed.

Section SettingsTyping.

Lemma spread_lookup m patch k :
  spread m patch !! k
  = match own_props patch !! k with Some v => Some v | None => m !! k end.
Proof.
  unfold spread. rewrite lookup_union.
  destruct (own_props patch !! k), (m !! k); done.
Qed.

Lemma spread_well_typed m patch :
  well_typed_settings m = true → conforming_patch patch = true →
  well_typed_settings (spread m patch) = true.
Proof.
  unfold well_typed_settings, conforming_patch.
  intros [Hm Hc]%andb_true_iff [Hpm Hpc]%andb_true_iff.
  rewrite !spread_lookup.
  destruct (own_props patch !! "playbackMode"), (own_props patch !! "syncControl");
    by rewrite ?Hm, ?Hc, ?Hpm, ?Hpc.
Qed.

Lemma all_well_typed_insert sv sv' c room' :
  all_well_typed sv → rooms sv' = <[c := room']> (rooms sv) →
  well_typed_settings (settings room') = true →
  all_well_typed sv'.
Proof.
  intros Hall Hrooms Hnew c0 r. rewrite Hrooms, lookup_insert. case_decide.
  - by intros [= <-].
  - apply Hall.
Qed.

Lemma step_well_typed i sv sv' out :
  all_well_typed sv → conforming_input i = true →
  step i sv = Some (sv', out) → all_well_typed sv'.
Proof.
  intros Hall Hconf. destruct i; simpl;
    try (intros [= H]; apply (f_equal fst) in H; simpl in H; subst sv').
  - unfold join_room. destruct (rooms sv !! roomCode0) as [room|] eqn:Hroom; [|done].
    eapply all_well_typed_insert; [exact Hall|reflexivity|]. simpl. eauto.
  - unfold create_room.
    destruct (generateRoomCode passes (roomCodes sv)) as [[c codes]|]; [|done].
    intros [= <- _]. eapply all_well_typed_insert; [exact Hall|reflexivity|].
    by vm_compute.
  - unfold update_room_settings. open_guard roomCode0 socket sv room Hroom u.
    destruct (isHost (user u)); [|done].
    eapply all_well_typed_insert; [exact Hall|reflexivity|]. simpl.
    apply spread_well_typed; eauto.
  - unfold add_to_room_playlist. open_guard roomCode0 socket sv room Hroom u.
    eapply all_well_typed_insert; [exact Hall|reflexivity|]. simpl. eauto.
  - unfold remove_from_room_playlist. open_guard roomCode0 socket sv room Hroom u.
    eapply all_well_typed_insert; [exact Hall|reflexivity|]. simpl. eauto.
  - by rewrite sync_playback_state.
  - by rewrite chat_message_state.
  - unfold disconnect, on_disconnect.
    change (userSockets (leaveAll (sid socket) sv)) with (userSockets sv).
    change (rooms (leaveAll (sid socket) sv)) with (rooms sv).
    destruct (userSockets sv !! sid socket) as [u|]; [|done].
    destruct (rooms sv !! roomCode u) as [room|] eqn:Hroom; [|done].
    destruct (isHost (user u)).
    + intros c r. simpl. rewrite lookup_delete. case_decide; [done|]. apply Hall.
    + eapply all_well_typed_insert; [exact Hall|reflexivity|]. simpl. eauto.
Qed.

Lemma run_well_typed inputs sv sv' out :
  all_well_typed sv → forallb conforming_input inputs = true →
  run inputs sv = Some (sv', out) → all_well_typed sv'.
Proof.
  revert sv out. induction inputs as [|i inputs IH]; intros sv out Hall; simpl.
  - by intros _ [= <- _].
  - intros [Hi Hrest]%andb_true_iff.
    destruct (step i sv) as [[sv1 out1]|] eqn:Hstep; [|done].
    destruct (run inputs sv1) as [[sv2 out2]|] eqn:Hrun; [|done].
    intros [= <- _]. eapply IH; [|done..]. by eapply step_well_typed.
Qed.

End SettingsTyping.

(** C10, amended: a room is created with [playbackMode] 'individual' and
    [syncControl] 'host-only'; an accepted update gives every key of the
    patch the patch's value, whatever it is, and leaves the other keys as
    they were; so the settings of every room keep [playbackMode] in
    {individual, sync} and [syncControl] in {host-only, anyone} along every
    run whose patches carry values of these types where they carry the two
    keys. *)
Theorem settings_typed_under_conforming_patches inputs sv out :
  run inputs init = Some (sv, out) →
  forallb conforming_input inputs = true →
  (∀ c room, rooms sv !! c = Some room →
     well_typed_settings (settings room) = true) ∧
  (∀ socket n d pl passes now sv' out' c codes,
     create_room socket n d pl passes now sv = Some (sv', out') →
     generateRoomCode passes (roomCodes sv) = Some (c, codes) →
     settings <$> rooms sv' !! c
     = Some {[ "playbackMode" := JStr "individual"; "syncControl" := JStr "host-only" ]}) ∧
  (∀ socket c patch room u k,
     rooms sv !! c = Some room → userSockets sv !! sid socket = Some u →
     isHost (user u) = true →
     (rooms (update_room_settings socket c patch sv).1 !! c ≫= λ r, settings r !! k)
     = match own_props patch !! k with
       | Some v => Some v
       | None => settings room !! k
       end).
Proof.
  intros Hrun Hconf. split; [|split].
  - by apply (run_well_typed inputs init sv out).
  - intros socket n d pl passes now sv' out' c codes. unfold create_room.
    intros H Hgen. rewrite Hgen in H. injection H as <- _. simpl.
    by rewrite lookup_insert_eq.
  - intros socket c patch room u k Hroom Hu Hflag.
    unfold update_room_settings. rewrite Hroom, Hu, Hflag. simpl.
    rewrite lookup_insert_eq. simpl. apply spread_lookup.
Qed.

Lemma settings_typed_under_conforming_patches_witness :
  let inputs := [Scenario.create Scenario.alice [Scenario.pass_ABC123];
                 UpdateRoomSettings Scenario.alice "ABC123"
                   (JObj {[ "playbackMode" := JStr "sync";
                            "syncControl" := JStr "anyone";
                            "theme" := JStr "dark" ]})] in
  ∃ sv out, run inputs init = Some (sv, out) ∧
    forallb conforming_input inputs = true ∧
    (rooms sv !! "ABC123" ≫= λ r, settings r !! "playbackMode") = Some (JStr "sync") ∧
    ∀ c room, rooms sv !! c = Some room → well_typed_settings (settings room) = true.
Proof.
  intros inputs. eexists _, _.
  assert (∀ (P : Prop) x, x → (x → P) → x ∧ P) as Hcut by tauto.
  apply Hcut; [vm_compute; reflexivity|]. intros Hrun.
  apply Hcut; [vm_compute; reflexivity|]. intros Hconf.
  split; [vm_compute; reflexivity|].
  exact (proj1 (settings_typed_under_conforming_patches inputs _ _ Hrun Hconf)).
Defined.

(** * Further properties of the handlers *)

(** ** Membership bookkeeping *)

Section MembershipInvariant.

Lemma Membership_update_room sv c room room' :
  Membership sv → rooms sv !! c = Some room →
  participants room' = participants room →
  participantCount room' = participantCount room →
  hostId room' = hostId room →
  Membership (with_rooms (<[c := room']> (rooms sv)) sv).
Proof.
  intros [Hn Hp Hh Hs Hc] Hroom Hps Hcount Hhost. split; simpl; try done.
  - intros c' r. rewrite lookup_insert. case_decide; [|by apply Hn].
    intros [= <-]. rewrite Hps, Hcount. by apply (Hn c).
  - intros c' r p ud. rewrite lookup_insert. case_decide; [|by apply Hp].
    intros [= <-]. rewrite Hps. by apply (Hp c).
  - intros c' r p ud. rewrite lookup_insert. case_decide; [|by apply Hh].
    intros [= <-]. rewrite Hps, Hhost. by apply (Hh c).
Qed.

Lemma join_room_Membership socket c n sv :
  Inv sv → Membership sv → Membership (join_room socket c n sv).1.
Proof.
  intros HI [Hn Hp Hh Hs Hc]. unfold join_room.
  destruct (rooms sv !! c) as [room|] eqn:Hroom; [|done]. simpl.
  split; simpl.
  - intros c' r. rewrite lookup_insert. case_decide; [|by apply Hn].
    by intros [= <-].
  - intros c' r p ud. rewrite lookup_insert. case_decide; [|by apply Hp].
    intros [= <-]. simpl. rewrite lookup_insert. case_decide; [|by apply (Hp c)].
    by intros [= <-].
  - intros c' r p ud. rewrite lookup_insert. case_decide; [|by apply Hh].
    intros [= <-]. simpl. rewrite lookup_insert. case_decide; [|by apply (Hh c)].
    by intros [= <-].
  - intros s u. rewrite lookup_insert. case_decide; [|by apply Hs].
    by intros [= <-].
  - intros c' s. rewrite members_socket_join. simpl. case_decide as E.
    + subst c'. intros [->%elem_of_singleton|Hin]%elem_of_union.
      * rewrite lookup_insert_eq. split; [by eexists|].
        apply (inv_room_code _ HI). rewrite (inv_codes _ HI). by eapply elem_of_dom_2.
      * destruct (Hc _ _ Hin) as [[u Hu] Hwf]. split; [|done].
        rewrite lookup_insert. case_decide; by eexists.
    + intros Hin. destruct (Hc _ _ Hin) as [[u Hu] Hwf]. split; [|done].
      rewrite lookup_insert. case_decide; by eexists.
Qed.

Lemma create_room_Membership socket n d pl passes now sv sv' out :
  Membership sv → create_room socket n d pl passes now sv = Some (sv', out) →
  Membership sv'.
Proof.
  intros [Hn Hp Hh Hs Hc]. unfold create_room.
  destruct (generateRoomCode passes (roomCodes sv)) as [[c codes]|] eqn:Hgen; [|done].
  apply generateRoomCode_Some in Hgen as (Hfresh & -> & Hwf).
  intros [= <- <-]. split; simpl.
  - intros c' r. rewrite lookup_insert. case_decide; [|by apply Hn].
    intros [= <-]. simpl. by rewrite map_size_singleton.
  - intros c' r p ud. rewrite lookup_insert. case_decide; [|by apply Hp].
    intros [= <-]. simpl. rewrite lookup_singleton. case_decide; [|done].
    by intros [= <-].
  - intros c' r p ud. rewrite lookup_insert. case_decide; [|by apply Hh].
    intros [= <-]. simpl. rewrite lookup_singleton. case_decide; [|done].
    by intros [= <-].
  - intros s u. rewrite lookup_insert. case_decide; [|by apply Hs].
    by intros [= <-].
  - intros c' s. rewrite members_socket_join. simpl. case_decide as E.
    + subst c'. intros [->%elem_of_singleton|Hin]%elem_of_union.
      * rewrite lookup_insert_eq. split; [by eexists|done].
      * destruct (Hc _ _ Hin) as [[u Hu] Hwf']. split; [|done].
        rewrite lookup_insert. case_decide; by eexists.
    + intros Hin. destruct (Hc _ _ Hin) as [[u Hu] Hwf']. split; [|done].
      rewrite lookup_insert. case_decide; by eexists.
Qed.

Lemma disconnect_Membership socket sv :
  Membership sv → Membership (disconnect socket sv).1.
Proof.
  intros [Hn Hp Hh Hs Hc].
  assert (∀ r us codes c s,
    s ∈ members c (mkServer r (delete (sid socket) us) codes
                     (channels (leaveAll (sid socket) sv))) →
    (∀ s', s' ≠ sid socket → us !! s' = userSockets sv !! s') →
    is_Some (delete (sid socket) us !! s) ∧ is_room_code c = true) as Hch.
  { intros r us codes c s Hin Hus.
    change (s ∈ members c (leaveAll (sid socket) sv)) in Hin.
    rewrite members_leaveAll in Hin.
    apply elem_of_difference in Hin as [Hin Hne%not_elem_of_singleton].
    destruct (Hc _ _ Hin) as [Hu Hwf]. split; [|done].
    by rewrite lookup_delete_ne, Hus. }
  unfold disconnect, on_disconnect.
  change (userSockets (leaveAll (sid socket) sv)) with (userSockets sv).
  change (rooms (leaveAll (sid socket) sv)) with (rooms sv).
  destruct (userSockets sv !! sid socket) as [u|] eqn:Hu.
  - assert (∀ s u', delete (sid socket) (userSockets sv) !! s = Some u' →
                    id (user u') = s ∧ socketId (user u') = s) as Hs'.
    { intros s u'. rewrite lookup_delete. case_decide; [done|]. apply Hs. }
    destruct (rooms sv !! roomCode u) as [room|] eqn:Hroom.
    + destruct (isHost (user u)); simpl.
      * split; simpl; try done.
        -- intros c r. rewrite lookup_delete. case_decide; [done|]. apply Hn.
        -- intros c r p ud. rewrite lookup_delete. case_decide; [done|]. apply Hp.
        -- intros c r p ud. rewrite lookup_delete. case_decide; [done|]. apply Hh.
        -- intros c s Hin. by apply (Hch _ _ _ _ _ Hin).
      * split; simpl; try done.
        -- intros c r. rewrite lookup_insert. case_decide; [|by apply Hn].
           by intros [= <-].
        -- intros c r p ud. rewrite lookup_insert. case_decide; [|by apply Hp].
           intros [= <-]. simpl. rewrite lookup_delete. case_decide; [done|].
           by apply (Hp (roomCode u)).
        -- intros c r p ud. rewrite lookup_insert. case_decide; [|by apply Hh].
           intros [= <-]. simpl. rewrite lookup_delete. case_decide; [done|].
           by apply (Hh (roomCode u)).
        -- intros c s Hin. by apply (Hch _ _ _ _ _ Hin).
    + simpl. split; simpl; try done. intros c s Hin. by apply (Hch _ _ _ _ _ Hin).
  - simpl. split; simpl; try done. intros c s Hin.
    change (s ∈ members c (leaveAll (sid socket) sv)) in Hin.
    rewrite members_leaveAll in Hin. apply elem_of_difference in Hin as [Hin _].
    by apply Hc.
Qed.

Lemma step_Membership i sv sv' out :
  Inv sv → Membership sv → step i sv = Some (sv', out) → Membership sv'.
Proof.
  intros HI HM. destruct i; simpl;
    try (intros [= H]; apply (f_equal fst) in H; simpl in H; subst sv').
  - by apply join_room_Membership.
  - by apply create_room_Membership.
  - unfold update_room_settings. open_guard roomCode0 socket sv room Hroom u.
    destruct (isHost (user u)); [|done]. simpl.
    by apply (Membership_update_room sv _ room).
  - unfold add_to_room_playlist. open_guard roomCode0 socket sv room Hroom u.
    by apply (Membership_update_room sv _ room).
  - unfold remove_from_room_playlist. open_guard roomCode0 socket sv room Hroom u.
    by apply (Membership_update_room sv _ room).
  - by rewrite sync_playback_state.
  - by rewrite chat_message_state.
  - by apply disconnect_Membership.
Qed.

Lemma reachable_Membership sv : reachable sv → Membership sv.
Proof.
  induction 1 as [|sv i sv' out Hreach IH Hstep].
  - split; simpl; done.
  - eapply step_Membership; eauto using reachable_Inv.
Qed.

End MembershipInvariant.

(** X1: in every reachable state the [participantCount] stored in a live
    room is the size of its participants map, and the participant list of the
    room's summary has that many entries. *)
Theorem participantCount_is_size sv c room :
  reachable sv → rooms sv !! c = Some room →
  participantCount room = size (participants room) ∧
  length (v_participants (view room)) = participantCount room.
Proof.
  intros Hreach Hroom.
  pose proof (mem_count _ (reachable_Membership _ Hreach) _ _ Hroom) as Hn.
  split; [done|]. simpl. by rewrite length_fmap, length_map_to_list.
Qed.

Lemma participantCount_is_size_witness :
  let sv := Scenario.after
              [Scenario.create Scenario.alice [Scenario.pass_ABC123];
               JoinRoom Scenario.bob "ABC123" (JStr "Bob");
               JoinRoom Scenario.bob "ABC123" (JStr "Bobby")] in
  ∃ room, rooms sv !! "ABC123" = Some room ∧
    participantCount room = 2 ∧
    participantCount room = size (participants room) ∧
    length (v_participants (view room)) = participantCount room.
Proof.
  intros sv.
  assert (reachable sv) as Hreach.
  { apply after_reachable. eexists. vm_compute. reflexivity. }
  eexists.
  assert (∀ (P : Prop) x, x → (x → P) → x ∧ P) as Hcut by tauto.
  apply Hcut; [vm_compute; reflexivity|]. intros Hroom.
  split; [reflexivity|].
  exact (participantCount_is_size sv "ABC123" _ Hreach Hroom).
Defined.

(** X2: in every reachable state each participant entry of a live room is
    filed under the socket id it carries, and an entry flagged host belongs
    to the room's [hostId]: a room never holds two entries flagged host. *)
Theorem one_host_entry sv c room p ud :
  reachable sv → rooms sv !! c = Some room → participants room !! p = Some ud →
  id ud = p ∧ socketId ud = p ∧
  (isHost ud = true → hostId room = p) ∧
  (∀ q uq, participants room !! q = Some uq → isHost ud = true →
           isHost uq = true → q = p).
Proof.
  intros Hreach Hroom Hp. pose proof (reachable_Membership _ Hreach) as HM.
  destruct (mem_participant _ HM _ _ _ _ Hroom Hp) as [Hid Hsock].
  repeat split; try done.
  - by apply (mem_host _ HM c).
  - intros q uq Hq Hf Hfq.
    rewrite <- (mem_host _ HM c _ _ _ Hroom Hp Hf). symmetry.
    by apply (mem_host _ HM c _ _ uq).
Qed.

Lemma one_host_entry_witness :
  let sv := Scenario.after
              [Scenario.create Scenario.alice [Scenario.pass_ABC123];
               JoinRoom Scenario.bob "ABC123" (JStr "Bob")] in
  ∃ room ud, rooms sv !! "ABC123" = Some room ∧
    participants room !! sid Scenario.alice = Some ud ∧ isHost ud = true ∧
    id ud = sid Scenario.alice ∧ hostId room = sid Scenario.alice.
Proof.
  intros sv.
  assert (reachable sv) as Hreach.
  { apply after_reachable. eexists. vm_compute. reflexivity. }
  eexists _, _.
  assert (∀ (P : Prop) x, x → (x → P) → x ∧ P) as Hcut by tauto.
  apply Hcut; [vm_compute; reflexivity|]. intros Hroom.
  apply Hcut; [vm_compute; reflexivity|]. intros Hp.
  apply Hcut; [reflexivity|]. intros Hflag.
  destruct (one_host_entry sv "ABC123" _ _ _ Hreach Hroom Hp) as (Hid & _ & Hhost & _).
  split; [exact Hid|exact (Hhost Hflag)].
Defined.

Lemma step_room_audience i sv sv' out e c :
  step i sv = Some (sv', out) → e ∈ out → room_audience (to e) = Some c →
  is_Some (rooms sv !! c).
Proof.
  destruct i; simpl.
  - intros [= H]. unfold join_room in H.
    destruct (rooms sv !! roomCode0) as [room|] eqn:Hroom; injection H as <- <-.
    + intros [->|[->|[]%elem_of_nil]%elem_of_cons]%elem_of_cons; [|done].
      intros [= <-]. by eexists.
    + by intros ->%list_elem_of_singleton.
  - unfold create_room.
    destruct (generateRoomCode passes (roomCodes sv)) as [[c0 codes]|]; [|done].
    intros [= <- <-]. by intros ->%list_elem_of_singleton.
  - intros [= H]. unfold update_room_settings in H.
    destruct (rooms sv !! roomCode0) as [room|] eqn:Hroom;
      [destruct (userSockets sv !! sid socket) as [u|];
       [destruct (isHost (user u))|]|];
      injection H as <- <-; intros ->%list_elem_of_singleton; try done.
    intros [= <-]. by eexists.
  - intros [= H]. unfold add_to_room_playlist in H.
    destruct (rooms sv !! roomCode0) as [room|] eqn:Hroom;
      [destruct (userSockets sv !! sid socket) as [u|]|];
      injection H as <- <-; intros ->%list_elem_of_singleton; try done.
    intros [= <-]. by eexists.
  - intros [= H]. unfold remove_from_room_playlist in H.
    destruct (rooms sv !! roomCode0) as [room|] eqn:Hroom;
      [destruct (userSockets sv !! sid socket) as [u|]|];
      injection H as <- <-; intros ->%list_elem_of_singleton; try done.
    intros [= <-]. by eexists.
  - intros [= H]. unfold sync_playback in H.
    destruct (rooms sv !! roomCode0) as [room|] eqn:Hroom;
      [destruct (userSockets sv !! sid socket) as [u|]|];
      repeat case_match; injection H as <- <-;
      try (by intros []%elem_of_nil);
      intros ->%list_elem_of_singleton; try done.
    intros [= <-]. by eexists.
  - intros [= H]. unfold chat_message in H.
    destruct (rooms sv !! roomCode0) as [room|] eqn:Hroom;
      [destruct (userSockets sv !! sid socket) as [u|]|];
      injection H as <- <-; intros ->%list_elem_of_singleton; try done.
    intros [= <-]. by eexists.
  - intros [= H]. unfold disconnect, on_disconnect in H.
    change (userSockets (leaveAll (sid socket) sv)) with (userSockets sv) in H.
    change (rooms (leaveAll (sid socket) sv)) with (rooms sv) in H.
    destruct (userSockets sv !! sid socket) as [u|];
      [destruct (rooms sv !! roomCode u) as [room|] eqn:Hroom;
       [destruct (isHost (user u))|]|];
      injection H as <- <-;
      try (by intros []%elem_of_nil);
      intros ->%list_elem_of_singleton; intros [= <-]; by eexists.
Qed.

(** X3: in every reachable state the sockets that entered a socket.io room
    through [join-room] or [create-room] all hold a session, and the rooms so
    entered are named by well-formed room codes; every room broadcast a
    listener emits is addressed to the code of a registered room, never to the
    room socket.io names after a socket's own id; so a room broadcast does not
    reach a socket that has no session and whose id is not itself a room code,
    and a socket that has disconnected is left in none of the rooms it had
    entered. *)
Theorem broadcasts_reach_bound_sockets_only sv :
  reachable sv →
  (∀ c s, s ∈ members c sv →
          is_Some (userSockets sv !! s) ∧ is_room_code c = true) ∧
  (∀ i sv' out e c,
     step i sv = Some (sv', out) → e ∈ out → room_audience (to e) = Some c →
     is_Some (rooms sv !! c) ∧ is_room_code c = true ∧
     ∀ s, userSockets sv' !! s = None → is_room_code s = false →
          ¬ reaches sv' (to e) s) ∧
  (∀ socket c, sid socket ∉ members c (disconnect socket sv).1).
Proof.
  intros Hreach. pose proof (reachable_Membership _ Hreach) as HM.
  pose proof (reachable_Inv _ Hreach) as HI.
  split; [|split].
  - intros c s Hin. by apply (mem_channel _ HM).
  - intros i sv' out e c Hstep He Hc.
    pose proof (step_room_audience _ _ _ _ _ _ Hstep He Hc) as Hlive.
    assert (is_room_code c = true) as Hwf.
    { apply (inv_room_code _ HI). rewrite (inv_codes _ HI). by apply elem_of_dom. }
    split; [done|]. split; [done|]. intros s Hnone Hs Hreached.
    assert (Membership sv') as HM'.
    { by eapply step_Membership. }
    assert (s ∈ members c sv' ∨ s = c) as [Hin| ->].
    { destruct (to e); simpl in Hc, Hreached; [done|..];
        injection Hc as <-; tauto. }
    + destruct (mem_channel _ HM' _ _ Hin) as [[u Hu] _]. congruence.
    + congruence.
  - intros socket c Hin.
    assert (Membership (disconnect socket sv).1) as HM'.
    { by apply disconnect_Membership. }
    destruct (mem_channel _ HM' _ _ Hin) as [[u Hu] _].
    rewrite userSockets_disconnect, lookup_delete_eq in Hu. done.
Qed.

Lemma broadcasts_reach_bound_sockets_only_witness :
  let sv := Scenario.after
              [Scenario.create Scenario.alice [Scenario.pass_ABC123];
               JoinRoom Scenario.bob "ABC123" (JStr "Bob");
               Disconnect Scenario.bob] in
  let i := ChatMessage Scenario.alice "ABC123" (JStr "hi") 5 in
  let e := mkEmit (ToRoom "ABC123") "chat-message" (PChat (JStr "Host") (JStr "hi") 5) in
  reachable sv ∧
  step i sv = Some (sv, [e]) ∧
  userSockets sv !! sid Scenario.bob = None ∧
  is_room_code (sid Scenario.bob) = false ∧
  ¬ reaches sv (to e) (sid Scenario.bob).
Proof.
  intros sv i e.
  assert (reachable sv) as Hreach.
  { apply after_reachable. eexists. vm_compute. reflexivity. }
  assert (step i sv = Some (sv, [e])) as Hstep by (vm_compute; reflexivity).
  assert (userSockets sv !! sid Scenario.bob = None) as Hnone by (vm_compute; reflexivity).
  assert (is_room_code (sid Scenario.bob) = false) as Hid by reflexivity.
  do 4 (split; [assumption|]).
  refine (proj2 (proj2 (proj1 (proj2 (broadcasts_reach_bound_sockets_only sv Hreach))
                          i sv [e] e "ABC123" Hstep _ eq_refl))
            (sid Scenario.bob) Hnone Hid).
  apply list_elem_of_singleton. reflexivity.
Defined.

(** ** Sockets without a session, repeated disconnects, one room per step *)

Lemma leaveAll_absent s sv :
  (∀ c, s ∉ members c sv) → leaveAll s sv = sv.
Proof.
  intros Habs. destruct sv as [r us codes ch]. unfold leaveAll, with_channels. simpl.
  f_equal. apply map_eq. intros c. rewrite lookup_fmap.
  specialize (Habs c). unfold members in Habs. simpl in Habs.
  destruct (ch !! c) as [m|]; simpl in *; [|done].
  f_equal. set_solver.
Qed.

Lemma on_disconnect_channels socket sv :
  channels (on_disconnect socket sv).1 = channels sv.
Proof.
  unfold on_disconnect. destruct (userSockets sv !! sid socket) as [u|]; [|done].
  destruct (rooms sv !! roomCode u); [|done]. by destruct (isHost (user u)).
Qed.

(** X4: in a reachable state a socket that holds no session changes nothing
    by any message other than ['join-room'] and ['create-room'], its own
    disconnect included, and whatever the listener emits goes to that socket
    alone. *)
Theorem unbound_socket_is_inert sv i sv' out :
  reachable sv →
  userSockets sv !! sid (sender i) = None →
  binds i = false →
  step i sv = Some (sv', out) →
  sv' = sv ∧ ∀ e, e ∈ out → to e = ToSocket (sid (sender i)).
Proof.
  intros Hreach Hnone Hbind.
  assert (∀ msg : string, ∀ e,
            e ∈ [error_to (sender i) msg] → to e = ToSocket (sid (sender i))) as Herr.
  { by intros msg e ->%list_elem_of_singleton. }
  destruct i; try discriminate Hbind; simpl in *; intros [= H].
  - unfold update_room_settings in H. rewrite Hnone in H.
    destruct (rooms sv !! roomCode0); injection H as <- <-; eauto.
  - unfold add_to_room_playlist in H. rewrite Hnone in H.
    destruct (rooms sv !! roomCode0); injection H as <- <-; eauto.
  - unfold remove_from_room_playlist in H. rewrite Hnone in H.
    destruct (rooms sv !! roomCode0); injection H as <- <-; eauto.
  - unfold sync_playback in H. rewrite Hnone in H.
    destruct (rooms sv !! roomCode0); injection H as <- <-; eauto.
  - unfold chat_message in H. rewrite Hnone in H.
    destruct (rooms sv !! roomCode0); injection H as <- <-; eauto.
  - unfold disconnect in H. rewrite leaveAll_absent in H.
    + unfold on_disconnect in H. rewrite Hnone in H. injection H as <- <-.
      split; [done|]. by intros e ?%elem_of_nil.
    + intros c Hin.
      destruct (mem_channel _ (reachable_Membership _ Hreach) _ _ Hin) as [[u Hu] _].
      congruence.
Qed.

Lemma unbound_socket_is_inert_witness :
  let sv := Scenario.after [Scenario.create Scenario.alice [Scenario.pass_ABC123]] in
  let i := AddToRoomPlaylist Scenario.bob "ABC123" [Scenario.t1] in
  reachable sv ∧ userSockets sv !! sid (sender i) = None ∧
  ∃ sv' out, step i sv = Some (sv', out) ∧ sv' = sv ∧
             ∀ e, e ∈ out → to e = ToSocket (sid (sender i)).
Proof.
  intros sv i.
  assert (reachable sv) as Hreach.
  { apply after_reachable. eexists. vm_compute. reflexivity. }
  assert (userSockets sv !! sid (sender i) = None) as Hnone by (vm_compute; reflexivity).
  split; [exact Hreach|]. split; [exact Hnone|].
  exists (add_to_room_playlist Scenario.bob "ABC123" [Scenario.t1] sv).1,
         (add_to_room_playlist Scenario.bob "ABC123" [Scenario.t1] sv).2.
  assert (step i sv = Some ((add_to_room_playlist Scenario.bob "ABC123" [Scenario.t1] sv).1,
                            (add_to_room_playlist Scenario.bob "ABC123" [Scenario.t1] sv).2))
    as Hstep.
  { unfold i. cbn [step]. by rewrite <- surjective_pairing. }
  split; [exact Hstep|].
  exact (unbound_socket_is_inert sv i _ _ Hreach Hnone eq_refl Hstep).
Defined.

(** X5: a second disconnect of the same socket finds no session, emits
    nothing and leaves the server exactly as the first one left it. *)
Theorem disconnect_twice socket sv :
  disconnect socket (disconnect socket sv).1 = ((disconnect socket sv).1, []).
Proof.
  set (sv1 := (disconnect socket sv).1).
  assert (userSockets sv1 !! sid socket = None) as Hnone.
  { subst sv1. by rewrite userSockets_disconnect, lookup_delete_eq. }
  assert (∀ c, sid socket ∉ members c sv1) as Habs.
  { intros c. subst sv1. unfold members, disconnect.
    rewrite on_disconnect_channels. fold (members c (leaveAll (sid socket) sv)).
    rewrite members_leaveAll. set_solver. }
  unfold disconnect at 1. rewrite (leaveAll_absent _ _ Habs).
  unfold on_disconnect. by rewrite Hnone.
Qed.

Lemma step_other_rooms i sv sv' out c :
  step i sv = Some (sv', out) →
  addressed i sv ≠ Some c →
  rooms sv' !! c = rooms sv !! c.
Proof.
  destruct i; simpl;
    try (intros [= H]; apply (f_equal fst) in H; simpl in H; subst sv'; intros Hne).
  - unfold join_room.
    destruct (rooms sv !! roomCode0); [|done]. simpl.
    rewrite lookup_insert_ne; [done|congruence].
  - unfold create_room.
    destruct (generateRoomCode passes (roomCodes sv)) as [[c0 codes]|]; [|done].
    intros [= <- _] Hne. simpl in *. rewrite lookup_insert_ne; [done|congruence].
  - unfold update_room_settings.
    repeat case_match; try done. simpl. rewrite lookup_insert_ne; [done|congruence].
  - unfold add_to_room_playlist.
    repeat case_match; try done. simpl. rewrite lookup_insert_ne; [done|congruence].
  - unfold remove_from_room_playlist.
    repeat case_match; try done. simpl. rewrite lookup_insert_ne; [done|congruence].
  - by rewrite sync_playback_state.
  - by rewrite chat_message_state.
  - unfold disconnect, on_disconnect.
    change (userSockets (leaveAll (sid socket) sv)) with (userSockets sv).
    change (rooms (leaveAll (sid socket) sv)) with (rooms sv).
    destruct (userSockets sv !! sid socket) as [u|]; [|done]. simpl in Hne.
    destruct (rooms sv !! roomCode u); [|done].
    destruct (isHost (user u)); simpl.
    + rewrite lookup_delete_ne; [done|congruence].
    + rewrite lookup_insert_ne; [done|congruence].
Qed.

(** X6: a step leaves every entry of [rooms] as it was except the one under
    the code the listener works on: the [roomCode] of the payload, the code
    the generator returned, or the [roomCode] of the departing session. *)
Theorem step_touches_the_addressed_room i sv sv' out c :
  step i sv = Some (sv', out) →
  addressed i sv ≠ Some c →
  rooms sv' !! c = rooms sv !! c.
Proof. apply step_other_rooms. Qed.

Lemma step_touches_the_addressed_room_witness :
  let sv := Scenario.after
              [Scenario.create Scenario.alice [Scenario.pass_ABC123];
               Scenario.create Scenario.bob [Scenario.pass_XYZ789]] in
  let i := Disconnect Scenario.bob in
  addressed i sv = Some "XYZ789" ∧
  rooms (disconnect Scenario.bob sv).1 !! "ABC123" = rooms sv !! "ABC123".
Proof.
  intros sv i.
  assert (addressed i sv = Some "XYZ789") as Haddr by (vm_compute; reflexivity).
  split; [exact Haddr|].
  apply (step_touches_the_addressed_room i sv _ (disconnect Scenario.bob sv).2).
  - unfold i. cbn [step]. by rewrite <- surjective_pairing.
  - rewrite Haddr. discriminate.
Defined.

(** ** What a step can do to a live room *)

Section RoomFrame.

(** How one step relates a room that is live before and after it. *)
Lemma step_room i sv sv' out c r r' :
  Inv sv → step i sv = Some (sv', out) →
  rooms sv !! c = Some r → rooms sv' !! c = Some r' →
  (code r' = code r ∧ name r' = name r ∧ description r' = description r ∧
   createdAt r' = createdAt r ∧ hostId r' = hostId r ∧ hostIP r' = hostIP r) ∧
  (settings r' = settings r ∨
   ∃ socket patch u, i = UpdateRoomSettings socket c patch ∧
     userSockets sv !! sid socket = Some u ∧ isHost (user u) = true ∧
     settings r' = spread (settings r) patch) ∧
  (playlist r' = playlist r ∨
   (∃ socket songs, i = AddToRoomPlaylist socket c songs ∧
      is_Some (userSockets sv !! sid socket) ∧
      playlist r' = add_songs (playlist r) songs) ∨
   (∃ socket songIds, i = RemoveFromRoomPlaylist socket c songIds ∧
      is_Some (userSockets sv !! sid socket) ∧
      playlist r' = remove_songs (playlist r) songIds)).
Proof.
  intros HI Hstep Hr Hr'.
  destruct (decide (addressed i sv = Some c)) as [Haddr|Haddr].
  2:{ rewrite (step_other_rooms _ _ _ _ _ Hstep Haddr), Hr in Hr'.
      injection Hr' as <-. auto 10. }
  destruct i; simpl in *.
  - injection Haddr as ->. injection Hstep as Hstep.
    apply (f_equal fst) in Hstep. simpl in Hstep. subst sv'.
    unfold join_room in Hr'. rewrite Hr in Hr'. simpl in Hr'.
    rewrite lookup_insert_eq in Hr'. injection Hr' as <-. simpl. auto 10.
  - unfold create_room in Hstep.
    destruct (generateRoomCode passes (roomCodes sv)) as [[c0 codes]|] eqn:Hgen; [|done].
    simpl in Haddr. injection Haddr as ->.
    apply generateRoomCode_Some in Hgen as (Hfresh & _).
    rewrite (inv_codes _ HI) in Hfresh. by apply not_elem_of_dom in Hfresh; congruence.
  - injection Haddr as ->. injection Hstep as Hstep.
    apply (f_equal fst) in Hstep. simpl in Hstep. subst sv'.
    unfold update_room_settings in Hr'. rewrite Hr in Hr'.
    destruct (userSockets sv !! sid socket) as [u|] eqn:Hu.
    2:{ simpl in Hr'. rewrite Hr in Hr'. injection Hr' as <-. auto 10. }
    destruct (isHost (user u)) eqn:Hflag.
    2:{ simpl in Hr'. rewrite Hr in Hr'. injection Hr' as <-. auto 10. }
    simpl in Hr'. rewrite lookup_insert_eq in Hr'. injection Hr' as <-. simpl.
    split; [done|]. split; [|by left]. right. by eexists _, _, _.
  - injection Haddr as ->. injection Hstep as Hstep.
    apply (f_equal fst) in Hstep. simpl in Hstep. subst sv'.
    unfold add_to_room_playlist in Hr'. rewrite Hr in Hr'.
    destruct (userSockets sv !! sid socket) as [u|] eqn:Hu.
    2:{ simpl in Hr'. rewrite Hr in Hr'. injection Hr' as <-. auto 10. }
    simpl in Hr'. rewrite lookup_insert_eq in Hr'. injection Hr' as <-. simpl.
    split; [done|]. split; [by left|]. right. left. by eexists _, _.
  - injection Haddr as ->. injection Hstep as Hstep.
    apply (f_equal fst) in Hstep. simpl in Hstep. subst sv'.
    unfold remove_from_room_playlist in Hr'. rewrite Hr in Hr'.
    destruct (userSockets sv !! sid socket) as [u|] eqn:Hu.
    2:{ simpl in Hr'. rewrite Hr in Hr'. injection Hr' as <-. auto 10. }
    simpl in Hr'. rewrite lookup_insert_eq in Hr'. injection Hr' as <-. simpl.
    split; [done|]. split; [by left|]. right. right. by eexists _, _.
  - injection Hstep as Hstep. apply (f_equal fst) in Hstep. simpl in Hstep.
    rewrite sync_playback_state in Hstep. subst sv'.
    rewrite Hr in Hr'. injection Hr' as <-. auto 10.
  - injection Hstep as Hstep. apply (f_equal fst) in Hstep. simpl in Hstep.
    rewrite chat_message_state in Hstep. subst sv'.
    rewrite Hr in Hr'. injection Hr' as <-. auto 10.
  - injection Hstep as Hstep. apply (f_equal fst) in Hstep. simpl in Hstep. subst sv'.
    unfold disconnect, on_disconnect in Hr'.
    change (userSockets (leaveAll (sid socket) sv)) with (userSockets sv) in Hr'.
    change (rooms (leaveAll (sid socket) sv)) with (rooms sv) in Hr'.
    destruct (userSockets sv !! sid socket) as [u|]; [|done].
    simpl in Haddr. injection Haddr as Hc. rewrite Hc, Hr in Hr'.
    destruct (isHost (user u)); simpl in Hr'.
    + by rewrite lookup_delete_eq in Hr'.
    + rewrite lookup_insert_eq in Hr'. injection Hr' as <-. simpl. auto 10.
Qed.

End RoomFrame.

(** X7: while a room stays registered in a reachable run its code, name,
    description, creation time, [hostId] and [hostIP] are what the
    ['create-room'] listener stored: no step rewrites them, and no later
    ['create-room'] replaces a live room. *)
Theorem room_identity_is_fixed i sv sv' out c r r' :
  reachable sv → step i sv = Some (sv', out) →
  rooms sv !! c = Some r → rooms sv' !! c = Some r' →
  code r' = code r ∧ name r' = name r ∧ description r' = description r ∧
  createdAt r' = createdAt r ∧ hostId r' = hostId r ∧ hostIP r' = hostIP r.
Proof.
  intros Hreach Hstep Hr Hr'.
  exact (proj1 (step_room _ _ _ _ _ _ _ (reachable_Inv _ Hreach) Hstep Hr Hr')).
Qed.

Lemma room_identity_is_fixed_witness :
  let sv := Scenario.after
              [CreateRoom Scenario.alice (JStr "Friday") JUndefined None
                 [Scenario.pass_ABC123] 7] in
  let i := CreateRoom Scenario.bob (JStr "Other") JUndefined None
             [Scenario.pass_ABC123; Scenario.pass_XYZ789] 9 in
  ∃ sv' out r r', step i sv = Some (sv', out) ∧
    rooms sv !! "ABC123" = Some r ∧ rooms sv' !! "ABC123" = Some r' ∧
    name r = JStr "Friday" ∧
    code r' = code r ∧ name r' = name r ∧ description r' = description r ∧
    createdAt r' = createdAt r ∧ hostId r' = hostId r ∧ hostIP r' = hostIP r.
Proof.
  intros sv i.
  assert (reachable sv) as Hreach.
  { apply after_reachable. eexists. vm_compute. reflexivity. }
  eexists _, _, _, _.
  assert (∀ (P : Prop) x, x → (x → P) → x ∧ P) as Hcut by tauto.
  apply Hcut; [vm_compute; reflexivity|]. intros Hstep.
  apply Hcut; [vm_compute; reflexivity|]. intros Hr.
  apply Hcut; [vm_compute; reflexivity|]. intros Hr'.
  split; [reflexivity|].
  exact (room_identity_is_fixed i sv _ _ "ABC123" _ _ Hreach Hstep Hr Hr').
Defined.

(** X8: in a reachable run the settings of a live room change only by an
    ['update-room-settings'] message naming that room and sent by a socket
    whose session carries the host flag; they then become the merge of the old
    settings with the patch.  No other listener writes them. *)
Theorem settings_change_only_by_flagged_update i sv sv' out c r r' :
  reachable sv → step i sv = Some (sv', out) →
  rooms sv !! c = Some r → rooms sv' !! c = Some r' →
  settings r' ≠ settings r →
  ∃ socket patch u, i = UpdateRoomSettings socket c patch ∧
    userSockets sv !! sid socket = Some u ∧ isHost (user u) = true ∧
    settings r' = spread (settings r) patch.
Proof.
  intros Hreach Hstep Hr Hr' Hne.
  destruct (step_room _ _ _ _ _ _ _ (reachable_Inv _ Hreach) Hstep Hr Hr')
    as (_ & [Heq|H] & _); [done|exact H].
Qed.

Lemma settings_change_only_by_flagged_update_witness :
  let sv := Scenario.after [Scenario.create Scenario.alice [Scenario.pass_ABC123]] in
  let i := UpdateRoomSettings Scenario.alice "ABC123"
             (JObj {[ "syncControl" := JStr "anyone" ]}) in
  ∃ sv' out r r', step i sv = Some (sv', out) ∧
    rooms sv !! "ABC123" = Some r ∧ rooms sv' !! "ABC123" = Some r' ∧
    settings r' ≠ settings r ∧
    ∃ socket patch u, i = UpdateRoomSettings socket "ABC123" patch ∧
      userSockets sv !! sid socket = Some u ∧ isHost (user u) = true ∧
      settings r' = spread (settings r) patch.
Proof.
  intros sv i.
  assert (reachable sv) as Hreach.
  { apply after_reachable. eexists. vm_compute. reflexivity. }
  eexists _, _, _, _.
  assert (∀ (P : Prop) x, x → (x → P) → x ∧ P) as Hcut by tauto.
  apply Hcut; [vm_compute; reflexivity|]. intros Hstep.
  apply Hcut; [vm_compute; reflexivity|]. intros Hr.
  apply Hcut; [vm_compute; reflexivity|]. intros Hr'.
  apply Hcut.
  { intros Heq. apply (f_equal (λ m : gmap string jsval, m !! "syncControl")) in Heq.
    vm_compute in Heq. discriminate Heq. }
  intros Hne.
  exact (settings_change_only_by_flagged_update i sv _ _ "ABC123" _ _
           Hreach Hstep Hr Hr' Hne).
Defined.

(** X9: in a reachable run the playlist of a live room changes only by an
    ['add-to-room-playlist'] or ['remove-from-room-playlist'] message naming
    that room and sent by a socket that holds a session, of whatever room and
    with or without the host flag; joins, settings updates, playback
    commands, chat and departures leave it as it was. *)
Theorem playlist_changes_only_by_add_or_remove i sv sv' out c r r' :
  reachable sv → step i sv = Some (sv', out) →
  rooms sv !! c = Some r → rooms sv' !! c = Some r' →
  playlist r' ≠ playlist r →
  (∃ socket songs, i = AddToRoomPlaylist socket c songs ∧
     is_Some (userSockets sv !! sid socket) ∧
     playlist r' = add_songs (playlist r) songs) ∨
  (∃ socket songIds, i = RemoveFromRoomPlaylist socket c songIds ∧
     is_Some (userSockets sv !! sid socket) ∧
     playlist r' = remove_songs (playlist r) songIds).
Proof.
  intros Hreach Hstep Hr Hr' Hne.
  destruct (step_room _ _ _ _ _ _ _ (reachable_Inv _ Hreach) Hstep Hr Hr')
    as (_ & _ & [Heq|H]); [done|exact H].
Qed.

Lemma playlist_changes_only_by_add_or_remove_witness :
  let sv := Scenario.after
              [Scenario.create Scenario.alice [Scenario.pass_ABC123];
               Scenario.create Scenario.bob [Scenario.pass_XYZ789]] in
  let i := AddToRoomPlaylist Scenario.bob "ABC123" [Scenario.t1] in
  ∃ sv' out r r', step i sv = Some (sv', out) ∧
    rooms sv !! "ABC123" = Some r ∧ rooms sv' !! "ABC123" = Some r' ∧
    playlist r = [] ∧ playlist r' = [Scenario.t1] ∧
    ((∃ socket songs, i = AddToRoomPlaylist socket "ABC123" songs ∧
        is_Some (userSockets sv !! sid socket) ∧
        playlist r' = add_songs (playlist r) songs) ∨
     (∃ socket songIds, i = RemoveFromRoomPlaylist socket "ABC123" songIds ∧
        is_Some (userSockets sv !! sid socket) ∧
        playlist r' = remove_songs (playlist r) songIds)).
Proof.
  intros sv i.
  assert (reachable sv) as Hreach.
  { apply after_reachable. eexists. vm_compute. reflexivity. }
  eexists _, _, _, _.
  assert (∀ (P : Prop) x, x → (x → P) → x ∧ P) as Hcut by tauto.
  apply Hcut; [vm_compute; reflexivity|]. intros Hstep.
  apply Hcut; [vm_compute; reflexivity|]. intros Hr.
  apply Hcut; [vm_compute; reflexivity|]. intros Hr'.
  apply Hcut; [reflexivity|]. intros Hpl.
  apply Hcut; [reflexivity|]. intros Hpl'.
  apply (playlist_changes_only_by_add_or_remove i sv _ _ "ABC123" _ _
           Hreach Hstep Hr Hr').
  rewrite Hpl, Hpl'. discriminate.
Defined.

(** ** Joining, creating, chatting *)

(** X10: joining a live room files the joiner under its socket id without
    the host flag and with the name 'Anonymous' when none is given, raises the
    participant count by one unless the socket was already a participant,
    keeps the playlist and the settings, announces the joiner to the room, the
    joiner included, and sends the joiner a summary whose participant list
    contains it. *)
Theorem join_room_admits sv socket c n room :
  reachable sv → rooms sv !! c = Some room →
  let ud := mkUserData (sid socket) (or_else n (JStr "Anonymous")) false
              (sid socket) (address socket) in
  let sv' := (join_room socket c n sv).1 in
  ∃ room',
    rooms sv' !! c = Some room' ∧
    participants room' !! sid socket = Some ud ∧
    (∀ p, p ≠ sid socket → participants room' !! p = participants room !! p) ∧
    participantCount room'
    = match participants room !! sid socket with
      | Some _ => participantCount room
      | None => S (participantCount room)
      end ∧
    playlist room' = playlist room ∧ settings room' = settings room ∧
    userSockets sv' !! sid socket = Some (mkSession c ud) ∧
    (join_room socket c n sv).2
    = [mkEmit (ToRoom c) "participant-joined"
         (PParticipantJoined ud (participantCount room'));
       mkEmit (ToSocket (sid socket)) "room-joined" (PRoomData (view room') ud)] ∧
    ud ∈ v_participants (view room') ∧
    sid socket ∈ recipients sv' (ToRoom c) ∧
    (∀ p up, userSockets sv !! p = Some up → roomCode up = c →
             p ∈ recipients sv' (ToRoom c)).
Proof.
  intros Hreach Hroom ud sv'. subst sv'. unfold join_room. rewrite Hroom. simpl.
  eexists. split; [apply lookup_insert_eq|]. simpl.
  split; [apply lookup_insert_eq|].
  split; [by intros p Hp; rewrite lookup_insert_ne|].
  split.
  { rewrite (mem_count _ (reachable_Membership _ Hreach) _ _ Hroom).
    rewrite map_size_insert. by destruct (participants room !! sid socket). }
  do 2 (split; [done|]). split; [apply lookup_insert_eq|]. split; [done|].
  split.
  { apply list_elem_of_fmap. exists (sid socket, ud). split; [done|].
    apply elem_of_map_to_list. apply lookup_insert_eq. }
  unfold members. simpl. rewrite lookup_insert_eq. simpl.
  split; [set_solver|]. intros p up Hp <-.
  pose proof (inv_member _ (reachable_Inv _ Hreach) _ _ Hp) as Hin.
  unfold members in Hin. set_solver.
Qed.

Lemma join_room_admits_witness :
  let sv := Scenario.after [Scenario.create Scenario.alice [Scenario.pass_ABC123]] in
  let sv' := (join_room Scenario.bob "ABC123" JUndefined sv).1 in
  ∃ room', rooms sv' !! "ABC123" = Some room' ∧
    participantCount room' = 2 ∧
    (displayName <$> participants room' !! sid Scenario.bob) = Some (JStr "Anonymous") ∧
    sid Scenario.alice ∈ recipients sv' (ToRoom "ABC123").
Proof.
  intros sv sv'.
  assert (reachable sv) as Hreach.
  { apply after_reachable. eexists. vm_compute. reflexivity. }
  assert (∃ room, rooms sv !! "ABC123" = Some room ∧ participantCount room = 1 ∧
                  participants room !! sid Scenario.bob = None)
    as (room & Hroom & Hcount & Hnew).
  { eexists. split; [vm_compute; reflexivity|]. split; vm_compute; reflexivity. }
  assert (∃ ua, userSockets sv !! sid Scenario.alice = Some ua ∧ roomCode ua = "ABC123")
    as (ua & Hua & Hca).
  { eexists. split; [vm_compute; reflexivity|]. reflexivity. }
  destruct (join_room_admits sv Scenario.bob "ABC123" JUndefined room Hreach Hroom)
    as (room' & Hr' & Hud & _ & Hn & _ & _ & _ & _ & _ & _ & Hrecv).
  exists room'. split; [exact Hr'|]. rewrite Hnew, Hcount in Hn.
  split; [exact Hn|]. split; [by rewrite Hud|]. exact (Hrecv _ _ Hua Hca).
Defined.

(** X11: in a reachable state ['join-room'] is refused exactly for the codes
    that are not reserved: the joiner alone gets ['join-error'] and the server
    is left as it was. *)
Theorem join_room_refused_iff_code_free sv socket c n :
  reachable sv →
  (c ∉ roomCodes sv ↔
   join_room socket c n sv
   = (sv, [mkEmit (ToSocket (sid socket)) "join-error" (PMessage "Room not found")])).
Proof.
  intros Hreach. rewrite (inv_codes _ (reachable_Inv _ Hreach)), not_elem_of_dom.
  unfold join_room. destruct (rooms sv !! c) as [room|].
  - split; [done|]. intros H. by apply (f_equal (λ r : Result, length r.2)) in H.
  - done.
Qed.

Lemma join_room_refused_iff_code_free_witness :
  let sv := Scenario.after
              [Scenario.create Scenario.alice [Scenario.pass_ABC123];
               JoinRoom Scenario.bob "ABC123" (JStr "Bob");
               Disconnect Scenario.alice] in
  reachable sv ∧
  join_room Scenario.bob "ABC123" (JStr "Bob") sv
  = (sv, [mkEmit (ToSocket (sid Scenario.bob)) "join-error" (PMessage "Room not found")]).
Proof.
  intros sv.
  assert (reachable sv) as Hreach.
  { apply after_reachable. eexists. vm_compute. reflexivity. }
  split; [exact Hreach|].
  apply (join_room_refused_iff_code_free sv Scenario.bob "ABC123" (JStr "Bob") Hreach).
  intros Hin%elem_of_elements. vm_compute in Hin. by apply elem_of_nil in Hin.
Defined.

(** X12: joining the same room again with the same name changes nothing
    more: the server after two such messages is the server after one. *)
Theorem join_room_again socket c n sv :
  (join_room socket c n (join_room socket c n sv).1).1 = (join_room socket c n sv).1.
Proof.
  unfold join_room at 2 3. destruct (rooms sv !! c) as [room|] eqn:Hroom.
  2:{ simpl. unfold join_room. by rewrite Hroom. }
  simpl. unfold join_room. simpl. rewrite lookup_insert_eq. simpl.
  unfold socket_join, with_channels, with_userSockets, with_rooms, members. simpl.
  rewrite lookup_insert_eq. simpl.
  f_equal.
  - rewrite insert_insert_eq. f_equal.
    unfold with_participants. simpl. by rewrite insert_insert_eq.
  - by rewrite insert_insert_eq.
  - rewrite insert_insert_eq. f_equal. set_solver.
Qed.

(** X13: in a reachable state ['create-room'] registers the new room beside
    the live ones, none of which it touches, reserves exactly the new code,
    makes the creating socket the room's only participant, flagged host and
    named 'Host', starts the playlist from the initial playlist or empty, binds
    the creator's session to the room and answers the creator alone. *)
Theorem create_room_registers sv socket n d pl passes now sv' out :
  reachable sv →
  create_room socket n d pl passes now sv = Some (sv', out) →
  ∃ c room,
    rooms sv !! c = None ∧ rooms sv' !! c = Some room ∧
    (∀ c', c' ≠ c → rooms sv' !! c' = rooms sv !! c') ∧
    roomCodes sv' = {[c]} ∪ roomCodes sv ∧
    participants room = {[ sid socket := mkUserData (sid socket) (JStr "Host") true
                                           (sid socket) (address socket) ]} ∧
    participantCount room = 1 ∧ hostId room = sid socket ∧
    hostIP room = address socket ∧ createdAt room = now ∧
    playlist room = default [] pl ∧
    (roomCode <$> userSockets sv' !! sid socket) = Some c ∧
    (∀ s, s ≠ sid socket → userSockets sv' !! s = userSockets sv !! s) ∧
    out = [mkEmit (ToSocket (sid socket)) "room-created"
             (PRoomData (view room) (mkUserData (sid socket) (JStr "Host") true
                                        (sid socket) (address socket)))] ∧
    sid socket ∈ recipients sv' (ToRoom c).
Proof.
  intros Hreach. unfold create_room.
  destruct (generateRoomCode passes (roomCodes sv)) as [[c codes]|] eqn:Hgen; [|done].
  apply generateRoomCode_Some in Hgen as (Hfresh & -> & Hwf).
  intros [= <- <-]. eexists c, _. simpl.
  split. { apply not_elem_of_dom. by rewrite <- (inv_codes _ (reachable_Inv _ Hreach)). }
  split; [apply lookup_insert_eq|]. simpl.
  split; [by intros c' Hc'; rewrite lookup_insert_ne|].
  do 7 (split; [done|]). rewrite lookup_insert_eq. split; [done|].
  split; [by intros s Hs; rewrite lookup_insert_ne|]. split; [done|].
  unfold members. simpl. rewrite lookup_insert_eq. simpl. set_solver.
Qed.

Lemma create_room_registers_witness :
  let sv := Scenario.after [Scenario.create Scenario.alice [Scenario.pass_ABC123]] in
  ∃ sv' out, create_room Scenario.bob (JStr "Late") JUndefined (Some [Scenario.t1])
               [Scenario.pass_ABC123; Scenario.pass_XYZ789] 3 sv = Some (sv', out) ∧
    rooms sv' !! "ABC123" = rooms sv !! "ABC123" ∧
    elements (roomCodes sv') = ["ABC123"; "XYZ789"].
Proof.
  intros sv.
  assert (reachable sv) as Hreach.
  { apply after_reachable. eexists. vm_compute. reflexivity. }
  eexists _, _.
  assert (∀ (P : Prop) x, x → (x → P) → x ∧ P) as Hcut by tauto.
  apply Hcut; [vm_compute; reflexivity|]. intros Hcreate.
  destruct (create_room_registers sv _ _ _ _ _ _ _ _ Hreach Hcreate)
    as (c & room & Hfree & _ & Hold & _).
  split; [|vm_compute; reflexivity].
  apply Hold. intros Heq. rewrite <- Heq in Hfree. vm_compute in Hfree.
  discriminate Hfree.
Defined.

(** X14: a chat message from a socket that holds a session, to a live room,
    leaves the server as it was and is sent once to the whole room under the
    sender's display name; when the sender's session is bound to that room the
    sender is among the recipients, as is every other socket bound to it. *)
Theorem chat_message_reaches_the_room sv socket c message now room u :
  reachable sv → rooms sv !! c = Some room → userSockets sv !! sid socket = Some u →
  chat_message socket c message now sv
  = (sv, [mkEmit (ToRoom c) "chat-message"
            (PChat (displayName (user u)) message now)]) ∧
  (∀ p up, userSockets sv !! p = Some up → roomCode up = c →
           p ∈ recipients sv (ToRoom c)) ∧
  (roomCode u = c → sid socket ∈ recipients sv (ToRoom c)).
Proof.
  intros Hreach Hroom Hu. unfold chat_message. rewrite Hroom, Hu.
  split; [done|].
  assert (∀ p up, userSockets sv !! p = Some up → roomCode up = c →
                  p ∈ recipients sv (ToRoom c)) as Hall.
  { intros p up Hp <-. apply (inv_member _ (reachable_Inv _ Hreach) _ _ Hp). }
  split; [exact Hall|]. intros Hc. by apply (Hall _ u).
Qed.

Lemma chat_message_reaches_the_room_witness :
  let sv := Scenario.after
              [Scenario.create Scenario.alice [Scenario.pass_ABC123];
               JoinRoom Scenario.bob "ABC123" (JStr "Bob")] in
  reachable sv ∧
  chat_message Scenario.bob "ABC123" (JStr "hi") 5 sv
  = (sv, [mkEmit (ToRoom "ABC123") "chat-message" (PChat (JStr "Bob") (JStr "hi") 5)]) ∧
  sid Scenario.bob ∈ recipients sv (ToRoom "ABC123").
Proof.
  intros sv.
  assert (reachable sv) as Hreach.
  { apply after_reachable. eexists. vm_compute. reflexivity. }
  assert (∃ room, rooms sv !! "ABC123" = Some room) as (room & Hroom).
  { eexists. vm_compute. reflexivity. }
  assert (∃ u, userSockets sv !! sid Scenario.bob = Some u ∧ roomCode u = "ABC123" ∧
               displayName (user u) = JStr "Bob") as (u & Hu & Hc & Hn).
  { eexists. split; [vm_compute; reflexivity|]. split; reflexivity. }
  destruct (chat_message_reaches_the_room sv Scenario.bob "ABC123" (JStr "hi") 5
              room u Hreach Hroom Hu) as (Hout & _ & Hself).
  split; [exact Hreach|]. split; [by rewrite Hout, Hn|]. exact (Hself Hc).
Defined.

(** ** Settings patches and playback modes outside the expected values *)

Lemma prop_is_true obj key lit :
  prop_is obj key lit = true ↔ obj !! key = Some (JStr lit).
Proof.
  unfold prop_is. destruct (obj !! key) as [[]|]; try (split; [done|congruence]).
  rewrite String.eqb_eq. split; congruence.
Qed.

Lemma with_settings_same r : with_settings (settings r) r = r.
Proof. by destruct r. Qed.

Lemma server_eta sv :
  {| rooms := rooms sv; userSockets := userSockets sv;
     roomCodes := roomCodes sv; channels := channels sv |} = sv.
Proof. by destruct sv. Qed.

(** X15: applying the same settings patch twice leaves the server as
    applying it once; and an accepted patch that has no own properties
    ([undefined], [null], a number, a boolean, an empty object) leaves the
    server as it was, while the unchanged settings are still broadcast to the
    room. *)
Theorem update_room_settings_merge socket c patch sv :
  (update_room_settings socket c patch (update_room_settings socket c patch sv).1).1
  = (update_room_settings socket c patch sv).1 ∧
  (∀ room u, rooms sv !! c = Some room → userSockets sv !! sid socket = Some u →
     isHost (user u) = true → own_props patch = ∅ →
     update_room_settings socket c patch sv
     = (sv, [mkEmit (ToRoom c) "room-settings-updated" (PSettings (settings room))])).
Proof.
  split.
  - unfold update_room_settings at 2 3.
    destruct (rooms sv !! c) as [room|] eqn:Hroom;
      destruct (userSockets sv !! sid socket) as [u|] eqn:Hu;
      try (simpl; unfold update_room_settings; by rewrite ?Hroom, ?Hu).
    destruct (isHost (user u)) eqn:Hflag;
      [|simpl; unfold update_room_settings; by rewrite Hroom, Hu, Hflag].
    simpl. unfold update_room_settings. simpl.
    rewrite lookup_insert_eq, Hu, Hflag. simpl.
    unfold with_rooms. simpl. f_equal. rewrite insert_insert_eq. f_equal.
    unfold with_settings. simpl. f_equal.
    unfold spread. by rewrite (assoc_L (∪)), (idemp_L (∪)).
  - intros room u Hroom Hu Hflag Hempty. unfold update_room_settings.
    rewrite Hroom, Hu, Hflag. simpl. unfold spread. rewrite Hempty.
    rewrite (left_id_L ∅ (∪)), with_settings_same, insert_id by done.
    unfold with_rooms. by rewrite server_eta.
Qed.

Lemma update_room_settings_merge_witness :
  let sv := Scenario.after [Scenario.create Scenario.alice [Scenario.pass_ABC123]] in
  update_room_settings Scenario.alice "ABC123" JNull sv
  = (sv, [mkEmit (ToRoom "ABC123") "room-settings-updated"
            (PSettings {[ "playbackMode" := JStr "individual";
                          "syncControl" := JStr "host-only" ]})]).
Proof.
  intros sv.
  assert (∃ room, rooms sv !! "ABC123" = Some room ∧
            settings room = {[ "playbackMode" := JStr "individual";
                               "syncControl" := JStr "host-only" ]})
    as (room & Hroom & Hset).
  { eexists. split; [vm_compute; reflexivity|]. reflexivity. }
  assert (∃ u, userSockets sv !! sid Scenario.alice = Some u ∧ isHost (user u) = true)
    as (u & Hu & Hflag).
  { eexists. split; [vm_compute; reflexivity|]. reflexivity. }
  rewrite <- Hset.
  exact (proj2 (update_room_settings_merge Scenario.alice "ABC123" JNull sv)
           room u Hroom Hu Hflag eq_refl).
Defined.

(** X16: the playback listener tests the two settings against 'sync' and
    'host-only' only.  Whatever else [playbackMode] holds, or when it is
    missing, a command is dropped without any message; and under 'sync' every
    value of [syncControl] other than 'host-only', a missing one included,
    lets every socket with a session broadcast. *)
Theorem sync_playback_other_values sv socket c d room u :
  rooms sv !! c = Some room → userSockets sv !! sid socket = Some u →
  (settings room !! "playbackMode" ≠ Some (JStr "sync") →
     sync_playback socket c d sv = (sv, [])) ∧
  (settings room !! "playbackMode" = Some (JStr "sync") →
   settings room !! "syncControl" ≠ Some (JStr "host-only") →
     sync_playback socket c d sv
     = (sv, [mkEmit (ToRoomExcept c (sid socket)) "sync-playback-command"
               (PSync (action d) (songId d) (currentTime d) (isPlaying d)
                      (displayName (user u)))])).
Proof.
  intros Hroom Hu. unfold sync_playback. rewrite Hroom, Hu. split.
  - intros Hmode. destruct (prop_is _ "playbackMode" _) eqn:E; [|done].
    by apply prop_is_true in E.
  - intros Hmode%prop_is_true Hctl. rewrite Hmode.
    destruct (prop_is _ "syncControl" _) eqn:E; [|done].
    by apply prop_is_true in E.
Qed.

Lemma sync_playback_other_values_witness :
  let sv := Scenario.after
              [Scenario.create Scenario.alice [Scenario.pass_ABC123];
               JoinRoom Scenario.bob "ABC123" (JStr "Bob");
               UpdateRoomSettings Scenario.alice "ABC123"
                 (JObj {[ "playbackMode" := JStr "sync";
                          "syncControl" := JStr "hosts" ]})] in
  let d := mkSyncData (JStr "pause") (JStr "t1") (JNum 12) (JBool false) in
  sync_playback Scenario.bob "ABC123" d sv
  = (sv, [mkEmit (ToRoomExcept "ABC123" (sid Scenario.bob)) "sync-playback-command"
            (PSync (JStr "pause") (JStr "t1") (JNum 12) (JBool false) (JStr "Bob"))]).
Proof.
  intros sv d.
  assert (∃ room, rooms sv !! "ABC123" = Some room ∧
            settings room !! "playbackMode" = Some (JStr "sync") ∧
            settings room !! "syncControl" = Some (JStr "hosts"))
    as (room & Hroom & Hmode & Hctl).
  { eexists. split; [vm_compute; reflexivity|]. split; vm_compute; reflexivity. }
  assert (∃ u, userSockets sv !! sid Scenario.bob = Some u ∧
               displayName (user u) = JStr "Bob") as (u & Hu & Hn).
  { eexists. split; [vm_compute; reflexivity|]. reflexivity. }
  rewrite <- Hn.
  apply (proj2 (sync_playback_other_values sv Scenario.bob "ABC123" d room u Hroom Hu)
           Hmode).
  rewrite Hctl. discriminate.
Defined.

(** ** Playlists: existing tracks, round trips, successive removals *)

Section PlaylistAlgebra.

Implicit Types (pl songs : list Song) (ids : list string) (t : Song).

Lemma remove_songs_app pl1 pl2 ids :
  remove_songs (pl1 ++ pl2) ids = remove_songs pl1 ids ++ remove_songs pl2 ids.
Proof. unfold remove_songs. apply List.filter_app. Qed.

Lemma includes_app a b i : includes (a ++ b) i = includes a i || includes b i.
Proof. unfold includes. apply existsb_app. Qed.

End PlaylistAlgebra.

(** X17: adding never disturbs what is there: the old playlist is a prefix
    of the new one, whose length exceeds it by at most the size of the batch;
    and the playlist stays the same exactly when every id of the batch is
    already in it, the empty batch included. *)
Theorem add_songs_keeps_existing pl songs :
  pl `prefix_of` add_songs pl songs ∧
  length (add_songs pl songs) ≤ length pl + length songs ∧
  add_songs pl [] = pl ∧
  (add_songs pl songs = pl ↔ ∀ t, t ∈ songs → _id t ∈ _id <$> pl).
Proof.
  split; [by eexists|]. split.
  { unfold add_songs. rewrite length_app.
    pose proof (List.filter_length_le
                  (λ song : Song, negb (has_id pl (_id song))) songs). lia. }
  split; [apply app_nil_r|]. unfold add_songs. split.
  - intros Heq t Ht. apply has_id_true.
    destruct (has_id pl (_id t)) eqn:E; [done|].
    assert (t ∈ List.filter (λ song, negb (has_id pl (_id song))) songs) as Hin.
    { apply list_elem_of_In, filter_In. rewrite <- list_elem_of_In. by rewrite E. }
    rewrite <- (app_nil_r pl) in Heq at 2. apply app_inv_head in Heq.
    rewrite Heq in Hin. by apply elem_of_nil in Hin.
  - intros Hall. rewrite filter_none; [apply app_nil_r|].
    intros t Ht. rewrite negb_false_iff. by apply has_id_true, Hall.
Qed.

(** X18: removing the ids of a batch right after adding the batch gives the
    playlist it would have given before the batch; when no id of the batch
    was in the playlist, that is the playlist as it was before the add. *)
Theorem remove_after_add pl songs :
  remove_songs (add_songs pl songs) (_id <$> songs)
  = remove_songs pl (_id <$> songs) ∧
  ((∀ t, t ∈ songs → _id t ∉ _id <$> pl) →
     remove_songs (add_songs pl songs) (_id <$> songs) = pl).
Proof.
  assert (remove_songs (add_songs pl songs) (_id <$> songs)
          = remove_songs pl (_id <$> songs)) as Heq.
  { unfold add_songs. rewrite remove_songs_app.
    rewrite <- (app_nil_r (remove_songs pl _)) at 2. f_equal.
    apply filter_none. intros t Ht%list_elem_of_In%filter_In.
    destruct Ht as [Ht%list_elem_of_In _].
    rewrite negb_false_iff. apply includes_true, list_elem_of_fmap. eauto. }
  split; [exact Heq|]. intros Hnew. rewrite Heq. apply filter_all.
  intros t Ht. rewrite negb_true_iff. apply includes_false.
  intros (t' & Hid & Ht')%list_elem_of_fmap.
  apply (Hnew t' Ht'). rewrite <- Hid. apply list_elem_of_fmap. eauto.
Qed.

Lemma remove_after_add_witness :
  remove_songs (add_songs [Scenario.t1] [Scenario.t2; Scenario.t3])
    (_id <$> [Scenario.t2; Scenario.t3]) = [Scenario.t1].
Proof.
  apply (proj2 (remove_after_add [Scenario.t1] [Scenario.t2; Scenario.t3])).
  intros t Ht Hin. apply list_elem_of_singleton in Hin.
  apply elem_of_cons in Ht as [->|Ht]; [discriminate Hin|].
  apply list_elem_of_singleton in Ht as ->. discriminate Hin.
Defined.

(** X19: two removals in a row amount to one removal of both id lists, in
    either order; and once removed, none of the ids is left in the playlist. *)
Theorem remove_songs_compose pl a b :
  remove_songs (remove_songs pl a) b = remove_songs pl (a ++ b) ∧
  remove_songs (remove_songs pl a) b = remove_songs (remove_songs pl b) a ∧
  (∀ i, i ∈ a → i ∉ _id <$> remove_songs pl a).
Proof.
  assert (∀ x y, remove_songs (remove_songs pl x) y = remove_songs pl (x ++ y)) as Hcomp.
  { intros x y. induction pl as [|t pl IH]; [done|].
    unfold remove_songs in *. simpl. rewrite includes_app.
    destruct (includes x (_id t)); simpl; [exact IH|].
    destruct (includes y (_id t)); simpl; [exact IH|]. by f_equal. }
  split; [apply Hcomp|]. split.
  - rewrite !Hcomp. unfold remove_songs. apply List.filter_ext. intros t.
    by rewrite !includes_app, orb_comm.
  - intros i Hi (t & -> & Ht)%list_elem_of_fmap.
    rewrite remove_songs_filter in Ht. apply list_elem_of_filter in Ht as [Hout _].
    done.
Qed.

(** ** The code generator, once more *)

Section GeneratorAlgebra.

Lemma charAt_index_in i :
  i < 36 → ∃ a, charAt chars i = String a EmptyString ∧ index_in a chars = i.
Proof.
  intros Hi.
  do 36 (destruct i as [|i]; [eexists; split; reflexivity|]).
  lia.
Qed.

(** Reading the draws back from the code. *)
Lemma pass_for_draw_code rnd k :
  k < 6 → pass_for (draw_code rnd) k = random_index (rnd k).
Proof.
  intros Hk. unfold draw_code. simpl.
  destruct (charAt_index_in _ (random_index_lt (rnd 0))) as (a0 & -> & H0).
  destruct (charAt_index_in _ (random_index_lt (rnd 1))) as (a1 & -> & H1).
  destruct (charAt_index_in _ (random_index_lt (rnd 2))) as (a2 & -> & H2).
  destruct (charAt_index_in _ (random_index_lt (rnd 3))) as (a3 & -> & H3).
  destruct (charAt_index_in _ (random_index_lt (rnd 4))) as (a4 & -> & H4).
  destruct (charAt_index_in _ (random_index_lt (rnd 5))) as (a5 & -> & H5).
  unfold pass_for.
  change (String.list_ascii_of_string _) with [a0; a1; a2; a3; a4; a5].
  do 6 (destruct k as [|k]; [done|]). lia.
Qed.

Lemma draw_code_ext r1 r2 :
  (∀ k, k < 6 → random_index (r1 k) = random_index (r2 k)) →
  draw_code r1 = draw_code r2.
Proof.
  intros H. unfold draw_code. simpl.
  by rewrite (H 0), (H 1), (H 2), (H 3), (H 4), (H 5) by lia.
Qed.

End GeneratorAlgebra.

(** X20: the generator is still looping after the passes it was given
    exactly when every one of them drew a reserved code; and once it has left
    the loop, later passes do not matter. *)
Theorem generateRoomCode_loops_iff_all_collide passes codes :
  (generateRoomCode passes codes = None ↔ ∀ r, r ∈ passes → draw_code r ∈ codes) ∧
  (∀ res more, generateRoomCode passes codes = Some res →
               generateRoomCode (passes ++ more) codes = Some res).
Proof.
  split.
  - induction passes as [|rnd rest IH]; simpl.
    + split; [|done]. by intros _ r ?%elem_of_nil.
    + case_decide as Hin.
      * rewrite IH. split.
        -- intros H r [->|Hr]%elem_of_cons; auto.
        -- intros H r Hr. apply H. by right.
      * split; [done|]. intros H. destruct Hin. apply H. by left.
  - intros res more. induction passes as [|rnd rest IH]; simpl; [done|].
    by case_decide.
Qed.

(** X21: a code is six draws and nothing else: two passes give the same
    code exactly when their first six draws agree modulo 36, and the draws can
    be read back from the code. *)
Theorem draw_code_determines_draws r1 r2 :
  (draw_code r1 = draw_code r2 ↔ ∀ k, k < 6 → r1 k mod 36 = r2 k mod 36) ∧
  (∀ k, k < 6 → pass_for (draw_code r1) k = r1 k mod 36).
Proof.
  split; [split|].
  - intros Heq k Hk.
    change (random_index (r1 k) = random_index (r2 k)).
    by rewrite <- !pass_for_draw_code, Heq.
  - intros H. by apply draw_code_ext.
  - intros k Hk. by apply pass_for_draw_code.
Qed.

(** ** [getRoomStats] and [/health] *)

(** X22: in every reachable state [getRoomStats] counts exactly the reserved
    codes and lists each of them once, every one a well-formed room code; its
    user count is the number of sockets holding a session; and the [/health]
    report answers 'ok' with the same two counts. *)
Theorem getRoomStats_lists_reserved_codes sv uptime :
  reachable sv →
  RoomStats.totalRooms (getRoomStats sv) = size (roomCodes sv) ∧
  RoomStats.rooms (getRoomStats sv) ≡ₚ elements (roomCodes sv) ∧
  NoDup (RoomStats.rooms (getRoomStats sv)) ∧
  length (RoomStats.rooms (getRoomStats sv)) = RoomStats.totalRooms (getRoomStats sv) ∧
  (∀ c, c ∈ RoomStats.rooms (getRoomStats sv) → is_room_code c = true) ∧
  RoomStats.totalUsers (getRoomStats sv) = size (dom (userSockets sv)) ∧
  Health.status (health uptime sv) = "ok" ∧
  Health.rooms (health uptime sv) = RoomStats.totalRooms (getRoomStats sv) ∧
  Health.users (health uptime sv) = RoomStats.totalUsers (getRoomStats sv).
Proof.
  intros Hreach. pose proof (reachable_Inv _ Hreach) as HI. simpl.
  assert (∀ c, c ∈ (map_to_list (rooms sv)).*1 ↔ c ∈ roomCodes sv) as Hin.
  { intros c. rewrite (inv_codes _ HI), elem_of_dom, list_elem_of_fmap. split.
    - intros ([c' r] & -> & Hr%elem_of_map_to_list). by exists r.
    - intros [r Hr]. exists (c, r). split; [done|]. by apply elem_of_map_to_list. }
  split; [by rewrite (inv_codes _ HI), size_dom|].
  split.
  { apply NoDup_Permutation; [apply NoDup_fst_map_to_list|apply NoDup_elements|].
    intros c. by rewrite Hin, elem_of_elements. }
  split; [apply NoDup_fst_map_to_list|].
  split; [by rewrite length_fmap, length_map_to_list|].
  split; [intros c Hc%Hin; by apply (inv_room_code _ HI)|].
  split; [by rewrite size_dom|]. done.
Qed.

Lemma getRoomStats_lists_reserved_codes_witness :
  let sv := Scenario.after
              [Scenario.create Scenario.alice [Scenario.pass_ABC123];
               Scenario.create Scenario.bob [Scenario.pass_XYZ789];
               Disconnect Scenario.alice] in
  reachable sv ∧
  RoomStats.rooms (getRoomStats sv) = ["XYZ789"] ∧
  RoomStats.totalRooms (getRoomStats sv) = size (roomCodes sv) ∧
  RoomStats.rooms (getRoomStats sv) ≡ₚ elements (roomCodes sv).
Proof.
  intros sv.
  assert (reachable sv) as Hreach.
  { apply after_reachable. eexists. vm_compute. reflexivity. }
  split; [exact Hreach|]. split; [vm_compute; reflexivity|].
  destruct (getRoomStats_lists_reserved_codes sv 0 Hreach) as (H1 & H2 & _).
  split; [exact H1|exact H2].
Defined.

(** ** The stream endpoint *)

Lemma find_first {A} (f : A → bool) (l : list A) x :
  List.find f l = Some x →
  ∃ before after, l = before ++ x :: after ∧ f x = true ∧
                  ∀ y, y ∈ before → f y = false.
Proof.
  induction l as [|y l IH]; simpl; [done|].
  destruct (f y) eqn:E.
  - intros [= <-]. exists [], l. split; [done|]. split; [done|].
    by intros z ?%elem_of_nil.
  - intros (before & after & -> & Hx & Hb)%IH.
    exists (y :: before), after. split; [done|]. split; [done|].
    intros z [->|Hz]%elem_of_cons; auto.
Qed.

Lemma find_absent songId (pl : list Song) :
  songId ∉ _id <$> pl → List.find (λ s, String.eqb (_id s) songId) pl = None.
Proof.
  intros Habs. destruct (List.find _ pl) as [song|] eqn:E; [|done].
  apply find_some in E as [Hin%list_elem_of_In Heq%String.eqb_eq].
  destruct Habs. apply list_elem_of_fmap. eauto.
Qed.

(** X23: when the stream endpoint pipes a file, the room is live and the
    file is the one named by the [filename] of the first playlist entry with
    the requested id: that entry has a truthy [filePath], its [filename] is a
    string, the path is [path.join] of the uploads directory and that name,
    and the path exists on disk.  A later entry with the same id is never
    served. *)
Theorem stream_pipes_first_match dir join existsSync sv c songId h p :
  stream dir join existsSync sv c songId = Piped h p →
  ∃ room before song after filename,
    rooms sv !! c = Some room ∧
    playlist room = before ++ song :: after ∧
    (songId ∉ _id <$> before) ∧ _id song = songId ∧
    truthy (song_prop song "filePath") = true ∧
    song_prop song "filename" = JStr filename ∧
    p = join dir filename ∧ existsSync p = true ∧ h = stream_headers.
Proof.
  unfold stream. destruct (rooms sv !! c) as [room|]; [|done].
  destruct (List.find _ (playlist room)) as [song|] eqn:Hfind; [|done].
  destruct (truthy (song_prop song "filePath")) eqn:Hpath; [|done]. simpl.
  destruct (song_prop song "filename") as [| | | |filename| |] eqn:Hname; try done.
  destruct (existsSync (join dir filename)) eqn:Hex; [|done].
  intros [= <- <-].
  apply find_first in Hfind as (before & after & Hpl & Hid%String.eqb_eq & Hb).
  exists room, before, song, after, filename. repeat (split; [done|]).
  split; [|done]. intros (y & Hy & Hin)%list_elem_of_fmap.
  specialize (Hb y Hin). apply String.eqb_neq in Hb. congruence.
Qed.

Lemma stream_pipes_first_match_witness :
  let track (file : string) :=
    mkSong "t1" {[ "filePath" := JStr "/uploads/x"; "filename" := JStr file ]} in
  let sv := Scenario.after
              [CreateRoom Scenario.alice JUndefined JUndefined
                 (Some [Scenario.t2; track "first.mp3"; track "second.mp3"])
                 [Scenario.pass_ABC123] 0] in
  let join := λ d f : string, d +:+ "/" +:+ f in
  stream "uploads" join (λ _, true) sv "ABC123" "t1"
    = Piped stream_headers "uploads/first.mp3" ∧
  ∃ room before song after filename,
    rooms sv !! "ABC123" = Some room ∧
    playlist room = before ++ song :: after ∧
    ("t1" ∉ _id <$> before) ∧ _id song = "t1" ∧
    truthy (song_prop song "filePath") = true ∧
    song_prop song "filename" = JStr filename ∧
    "uploads/first.mp3" = join "uploads" filename ∧
    (λ _ : string, true) "uploads/first.mp3" = true ∧
    stream_headers = stream_headers.
Proof.
  intros track sv join.
  assert (stream "uploads" join (λ _, true) sv "ABC123" "t1"
          = Piped stream_headers "uploads/first.mp3") as H by (vm_compute; reflexivity).
  split; [exact H|].
  exact (stream_pipes_first_match "uploads" join (λ _, true) sv "ABC123" "t1" _ _ H).
Defined.

(** X24: the stream endpoint answers 404 'Room not found' for a code that
    is not registered, in particular for the room a flagged host has just
    left, and 404 'Song not found or not available for streaming' for an id
    no playlist entry carries, in particular right after a
    ['remove-from-room-playlist'] that named the id. *)
Theorem stream_not_found dir join existsSync sv c songId :
  (rooms sv !! c = None →
     stream dir join existsSync sv c songId = NotFound "Room not found") ∧
  (∀ room, rooms sv !! c = Some room → songId ∉ _id <$> playlist room →
     stream dir join existsSync sv c songId
     = NotFound "Song not found or not available for streaming") ∧
  (∀ socket songIds room u,
     rooms sv !! c = Some room → userSockets sv !! sid socket = Some u →
     songId ∈ songIds →
     stream dir join existsSync
       (remove_from_room_playlist socket c songIds sv).1 c songId
     = NotFound "Song not found or not available for streaming") ∧
  (∀ socket u room,
     userSockets sv !! sid socket = Some u → roomCode u = c →
     rooms sv !! c = Some room → isHost (user u) = true →
     stream dir join existsSync (disconnect socket sv).1 c songId
     = NotFound "Room not found").
Proof.
  split; [|split; [|split]].
  - unfold stream. by intros ->.
  - intros room Hroom Habs. unfold stream. by rewrite Hroom, find_absent.
  - intros socket songIds room u Hroom Hu Hin. unfold stream, remove_from_room_playlist.
    rewrite Hroom, Hu. simpl. rewrite lookup_insert_eq. simpl.
    rewrite find_absent; [done|].
    intros (t & -> & Ht)%list_elem_of_fmap.
    rewrite remove_songs_filter in Ht. by apply list_elem_of_filter in Ht as [Hout _].
  - intros socket u room Hu <- Hroom Hflag. unfold stream, disconnect, on_disconnect.
    change (userSockets (leaveAll (sid socket) sv)) with (userSockets sv).
    change (rooms (leaveAll (sid socket) sv)) with (rooms sv).
    rewrite Hu, Hroom, Hflag. simpl. by rewrite lookup_delete_eq.
Qed.

Lemma stream_not_found_witness :
  let track := mkSong "t1" {[ "filePath" := JStr "/uploads/x";
                              "filename" := JStr "x.mp3" ]} in
  let sv := Scenario.after
              [CreateRoom Scenario.alice JUndefined JUndefined (Some [track])
                 [Scenario.pass_ABC123] 0] in
  let join := λ d f : string, d +:+ "/" +:+ f in
  stream "uploads" join (λ _, true) sv "ABC123" "t1" = Piped stream_headers "uploads/x.mp3" ∧
  stream "uploads" join (λ _, true)
    (remove_from_room_playlist Scenario.alice "ABC123" ["t1"] sv).1 "ABC123" "t1"
  = NotFound "Song not found or not available for streaming" ∧
  stream "uploads" join (λ _, true) (disconnect Scenario.alice sv).1 "ABC123" "t1"
  = NotFound "Room not found".
Proof.
  intros track sv join.
  assert (∃ room, rooms sv !! "ABC123" = Some room) as (room & Hroom).
  { eexists. vm_compute. reflexivity. }
  assert (∃ u, userSockets sv !! sid Scenario.alice = Some u ∧
               roomCode u = "ABC123" ∧ isHost (user u) = true) as (u & Hu & Hc & Hflag).
  { eexists. split; [vm_compute; reflexivity|]. split; reflexivity. }
  destruct (stream_not_found "uploads" join (λ _, true) sv "ABC123" "t1")
    as (_ & _ & Hremoved & Hclosed).
  split; [vm_compute; reflexivity|]. split.
  - apply (Hremoved Scenario.alice ["t1"] room u Hroom Hu). by left.
  - exact (Hclosed Scenario.alice u room Hu Hc Hroom Hflag).
Defined.

(** ** Names of stored uploads *)

Section StorageNames.

Lemma string_app_assoc (a b c : string) : (a +:+ b) +:+ c = a +:+ (b +:+ c).
Proof.
  induction a as [|x a IH]; [done|].
  change (String x ((a +:+ b) +:+ c) = String x (a +:+ (b +:+ c))). by rewrite IH.
Qed.

Lemma no_underscore_app a b :
  no_underscore a → no_underscore b → no_underscore (a +:+ b).
Proof.
  intros Ha Hb. induction a as [|x a IH]; [done|].
  intros y. change (y ∈ x :: String.list_ascii_of_string (a +:+ b) → y ≠ "_"%char).
  intros [->|Hy]%elem_of_cons.
  - apply Ha. cbn. left.
  - apply IH; [|done]. intros z Hz. apply Ha. cbn. by right.
Qed.

Lemma pretty_N_char_no_underscore x : pretty_N_char x ≠ "_"%char.
Proof. unfold pretty_N_char. by repeat case_match. Qed.

Lemma pretty_N_go_digits x s :
  ∃ d, pretty_N_go x s = d +:+ s ∧ no_underscore d.
Proof.
  revert s. induction (N.lt_wf_0 x) as [x _ IH]; intros s.
  assert (x = 0 ∨ 0 < x)%N as [->|Hpos] by lia.
  - exists EmptyString. split; [done|]. by intros a ?%elem_of_nil.
  - rewrite pretty_N_go_step by done.
    destruct (IH (x `div` 10)%N (N.div_lt x 10 Hpos eq_refl)
                 (String (pretty_N_char (x `mod` 10)) s)) as (d & -> & Hd).
    exists (d +:+ String (pretty_N_char (x `mod` 10)) EmptyString). split.
    + by rewrite string_app_assoc.
    + apply no_underscore_app; [done|].
      intros a. cbn. intros ->%list_elem_of_singleton.
      apply pretty_N_char_no_underscore.
Qed.

Lemma pretty_N_no_underscore (n : N) : no_underscore (pretty n).
Proof.
  unfold pretty, pretty_N. case_decide.
  - intros a. cbn. by intros ->%list_elem_of_singleton.
  - destruct (pretty_N_go_digits n EmptyString) as (d & -> & Hd).
    apply no_underscore_app; [done|]. by intros a ?%elem_of_nil.
Qed.

Lemma split_at_underscore d1 d2 r1 r2 :
  no_underscore d1 → no_underscore d2 →
  d1 +:+ String "_" r1 = d2 +:+ String "_" r2 → d1 = d2 ∧ r1 = r2.
Proof.
  revert d2. induction d1 as [|x d1 IH]; intros [|y d2] H1 H2; cbn.
  - by intros [= ->].
  - intros [= <- _]. destruct (H2 "_"%char); [cbn; left|done].
  - intros [= -> _]. destruct (H1 "_"%char); [cbn; left|done].
  - intros [= -> Heq]. apply IH in Heq as [-> ->]; [done|..].
    + intros a Ha. apply H1. cbn. by right.
    + intros a Ha. apply H2. cbn. by right.
Qed.

End StorageNames.

(** X25: the name under which an upload is stored starts with the
    timestamp and the random draw and ends with the original name, and it
    determines all three: two uploads get the same stored name only when they
    arrive in the same millisecond with the same draw and the same original
    name. *)
Theorem storage_filename_inj now rnd originalname now' rnd' originalname' :
  storage_filename now rnd originalname = storage_filename now' rnd' originalname' →
  now = now' ∧ rnd = rnd' ∧ originalname = originalname'.
Proof.
  unfold storage_filename. cbv zeta. rewrite !string_app_assoc.
  change ("_" +:+ ?s) with (String "_" s).
  intros [Hnow Hrest]%split_at_underscore; try apply pretty_N_no_underscore.
  apply split_at_underscore in Hrest as [Hrnd Horig];
    try apply pretty_N_no_underscore.
  apply (inj pretty) in Hnow, Hrnd. done.
Qed.

Lemma storage_filename_inj_witness :
  storage_filename 1700000000000 42 "song.mp3" = "1700000000000_42_song.mp3" ∧
  (1700000000000 = 1700000000000)%N ∧ (42 = 42)%N ∧ "song.mp3" = "song.mp3".
Proof.
  split; [vm_compute; reflexivity|].
  apply (storage_filename_inj 1700000000000 42 "song.mp3" 1700000000000 42 "song.mp3").
  reflexivity.
Defined.

(** ** A code issued again *)

Lemma disconnect_flagged_host socket sv u room :
  userSockets sv !! sid socket = Some u → rooms sv !! roomCode u = Some room →
  isHost (user u) = true →
  (disconnect socket sv).1
  = {| rooms := delete (roomCode u) (rooms sv);
       userSockets := delete (sid socket) (userSockets sv);
       roomCodes := roomCodes sv ∖ {[roomCode u]};
       channels := channels (leaveAll (sid socket) sv) |}.
Proof.
  intros Hu Hroom Hflag. unfold disconnect, on_disconnect.
  change (userSockets (leaveAll (sid socket) sv)) with (userSockets sv).
  change (rooms (leaveAll (sid socket) sv)) with (rooms sv).
  by rewrite Hu, Hroom, Hflag.
Qed.

(** X26: closing a room neither removes the sessions of its other members
    nor takes them out of the socket.io room named by its code.  So when the
    code is issued again, a former member of the closed room is among the
    recipients of the new room's broadcasts, and its session names the new
    room, although it is not one of the new room's participants. *)
Theorem former_members_hear_the_reissued_code sv host u p up socket n d pl now :
  reachable sv →
  userSockets sv !! sid host = Some u → isHost (user u) = true →
  userSockets sv !! p = Some up → roomCode up = roomCode u →
  p ≠ sid host → p ≠ sid socket →
  let c := roomCode u in
  let closed := (disconnect host sv).1 in
  rooms closed !! c = None ∧
  userSockets closed !! p = Some up ∧
  p ∈ recipients closed (ToRoom c) ∧
  ∃ sv' out room,
    create_room socket n d pl [pass_for c] now closed = Some (sv', out) ∧
    rooms sv' !! c = Some room ∧ hostId room = sid socket ∧
    participants room !! p = None ∧
    userSockets sv' !! p = Some up ∧
    p ∈ recipients sv' (ToRoom c).
Proof.
  intros Hreach Hu Hflag Hp Hc Hne Hne' c closed.
  pose proof (reachable_Inv _ Hreach) as HI.
  destruct (inv_host _ HI _ _ Hu Hflag) as (room0 & Hroom0 & _).
  assert (is_room_code c = true) as Hwf.
  { apply (inv_room_code _ HI). rewrite (inv_codes _ HI). by eapply elem_of_dom_2. }
  assert (p ∈ members c closed) as Hin.
  { subst closed. rewrite (disconnect_flagged_host _ _ _ _ Hu Hroom0 Hflag).
    change (p ∈ members c (leaveAll (sid host) sv)). rewrite members_leaveAll.
    apply elem_of_difference. split; [|by apply not_elem_of_singleton].
    subst c. rewrite <- Hc. by apply (inv_member _ HI). }
  subst closed. rewrite (disconnect_flagged_host _ _ _ _ Hu Hroom0 Hflag) in *.
  simpl. split; [apply lookup_delete_eq|].
  split; [by rewrite lookup_delete_ne|]. split; [exact Hin|].
  unfold create_room. simpl. rewrite (draw_code_pass_for c Hwf).
  rewrite decide_False by set_solver.
  eexists _, _, _. split; [reflexivity|]. simpl.
  split; [apply lookup_insert_eq|]. split; [done|].
  split; [by apply lookup_singleton_ne|].
  split; [by rewrite lookup_insert_ne, lookup_delete_ne|].
  unfold members in *. simpl in *. rewrite lookup_insert_eq. simpl. set_solver.
Qed.

Lemma former_members_hear_the_reissued_code_witness :
  let sv := Scenario.after
              [Scenario.create Scenario.alice [Scenario.pass_ABC123];
               JoinRoom Scenario.bob "ABC123" (JStr "Bob")] in
  let carol := mkSocket "sock-carol" "10.0.0.3" in
  reachable sv ∧
  ∃ sv' out room,
    create_room carol JUndefined JUndefined None [pass_for "ABC123"] 9
      (disconnect Scenario.alice sv).1 = Some (sv', out) ∧
    rooms sv' !! "ABC123" = Some room ∧ hostId room = sid carol ∧
    participants room !! sid Scenario.bob = None ∧
    sid Scenario.bob ∈ recipients sv' (ToRoom "ABC123").
Proof.
  intros sv carol.
  assert (reachable sv) as Hreach.
  { apply after_reachable. eexists. vm_compute. reflexivity. }
  assert (∃ u, userSockets sv !! sid Scenario.alice = Some u ∧
               roomCode u = "ABC123" ∧ isHost (user u) = true) as (u & Hu & Hc & Hflag).
  { eexists. split; [vm_compute; reflexivity|]. split; reflexivity. }
  assert (∃ up, userSockets sv !! sid Scenario.bob = Some up ∧ roomCode up = "ABC123")
    as (up & Hup & Hcp).
  { eexists. split; [vm_compute; reflexivity|]. reflexivity. }
  split; [exact Hreach|].
  destruct (former_members_hear_the_reissued_code sv Scenario.alice u
              (sid Scenario.bob) up carol JUndefined JUndefined None 9
              Hreach Hu Hflag Hup)
    as (_ & _ & _ & sv' & out & room & Hcreate & Hroom & Hhost & Hpart & _ & Hin).
  { by rewrite Hc, Hcp. }
  { discriminate. }
  { discriminate. }
  rewrite Hc in Hcreate, Hroom, Hin.
  exists sv', out, room. auto.
Defined.
